(** * kiosk-it-frontend: session bootstrap and modifier pickers

    A shallow embedding of

    - [src/providers/session-provider.tsx]: the [SessionProvider] component
      with its one-time [initSession] pass, the [proactiveRefresh] check and
      the interval that drives it;
    - the three modifier pickers [ModifierChips], [ModifierCards] and
      [ModifierSegmented].

    Side effects are kept as the code has them.  Every call the provider
    makes to the session store, to the API client, to the console and to the
    host timers is appended to a trace, and the store is threaded through a
    small state-and-exception monad.  An [await] is run to completion at the
    place where it stands: the continuations of two asynchronous functions
    are not interleaved. *)

From Stdlib Require Import ZArith Lia Bool DecimalString.
From stdpp Require Import base strings list gmap.

Local Open Scope string_scope.
Local Open Scope list_scope.
Local Open Scope Z_scope.

(** ** JavaScript values *)

Module Js.

(** What a [catch (error)] clause can receive.  A JavaScript number is a
    double; only the integral ones are represented, which is where HTTP
    status codes live. *)
#[warnings="-register-all"]
Inductive JsValue : Type :=
| JsUndefined
| JsNull
| JsBool (b : bool)
| JsNumber (n : Z)
| JsString (s : string)
| JsObject (props : list (string * JsValue)).

(** [!!s] for [s : string | null | undefined]: the empty string is falsy. *)
Definition truthy_string (s : option string) : bool :=
  match s with
  | Some s => negb (String.eqb s "")
  | None => false
  end.

(** [!!v] for an arbitrary value. *)
Definition truthy (v : JsValue) : bool :=
  match v with
  | JsUndefined | JsNull => false
  | JsBool b => b
  | JsNumber n => negb (Z.eqb n 0)
  | JsString s => negb (String.eqb s "")
  | JsObject _ => true
  end.

(** [typeof v === 'object'] *)
Definition typeof_object (v : JsValue) : bool :=
  match v with
  | JsNull | JsObject _ => true
  | _ => false
  end.

Definition lookup_prop (k : string) (props : list (string * JsValue)) : option JsValue :=
  snd <$> List.find (fun p => String.eqb (fst p) k) props.

(** [k in v], for [v] already known to be an object. *)
Definition has_prop (k : string) (v : JsValue) : bool :=
  match v with
  | JsObject props =>
    match lookup_prop k props with
    | Some _ => true
    | None => false
    end
  | _ => false
  end.

(** [v[k]] *)
Definition get_prop (k : string) (v : JsValue) : JsValue :=
  match v with
  | JsObject props => default JsUndefined (lookup_prop k props)
  | _ => JsUndefined
  end.

(** [v === n] for a number literal [n]. *)
Definition strict_eq_number (v : JsValue) (n : Z) : bool :=
  match v with
  | JsNumber m => Z.eqb m n
  | _ => false
  end.

(** [a || b] where both sides are optional strings. *)
Definition or_else (a b : option string) : option string :=
  if truthy_string a then a else b.

(** [a || b] where the right-hand side is a string: the result is one. *)
Definition or_string (a : option string) (b : string) : string :=
  match a with
  | Some s => if String.eqb s "" then b else s
  | None => b
  end.

End Js.

Import Js.

(** ** The session store *)

Module SessionStore.

(** A tenant record as returned by [getCurrentTenant].  The provider reads
    nothing but [slug]; the remaining fields travel along untouched. *)
Record Tenant : Type := mkTenant {
  slug : string;
  tenantFields : list (string * string)
}.

(** The authenticated device.  The provider reads nothing but [tenantId]. *)
Record DeviceInfo : Type := mkDeviceInfo {
  tenantId : string;
  deviceFields : list (string * string)
}.

Record SessionState : Type := mkSessionState {
  tenantSlug : option string;
  tenant : option Tenant;
  deviceInfo : option DeviceInfo;
  isDeviceAuthenticated : bool;
  accessToken : option string;
  refreshToken : option string;
  accessTokenExpiresAt : option Z;
  isInitialized : bool
}.

(** Modelled from the spec: [setTenant] of [stores/session-store], a module
    whose code is not available.  "Store tenant + slug". *)
Definition setTenant (s : string) (t : Tenant) (st : SessionState) : SessionState :=
  {| tenantSlug := Some s;
     tenant := Some t;
     deviceInfo := deviceInfo st;
     isDeviceAuthenticated := isDeviceAuthenticated st;
     accessToken := accessToken st;
     refreshToken := refreshToken st;
     accessTokenExpiresAt := accessTokenExpiresAt st;
     isInitialized := isInitialized st |}.

(** Modelled from the spec: [setInitialized] of [stores/session-store].
    "no logic beyond field updates". *)
Definition setInitialized (v : bool) (st : SessionState) : SessionState :=
  {| tenantSlug := tenantSlug st;
     tenant := tenant st;
     deviceInfo := deviceInfo st;
     isDeviceAuthenticated := isDeviceAuthenticated st;
     accessToken := accessToken st;
     refreshToken := refreshToken st;
     accessTokenExpiresAt := accessTokenExpiresAt st;
     isInitialized := v |}.

(** Modelled from the spec: [updateTokens] of [stores/session-store].
    "atomically replaces access token, refresh token, and expiry".  How the
    store turns [expiresIn] into an absolute timestamp is not stated; it is
    the parameter [expiresAt]. *)
Definition updateTokens (expiresAt : Z -> option Z)
    (access refresh : string) (expiresIn : Z) (st : SessionState) : SessionState :=
  {| tenantSlug := tenantSlug st;
     tenant := tenant st;
     deviceInfo := deviceInfo st;
     isDeviceAuthenticated := isDeviceAuthenticated st;
     accessToken := Some access;
     refreshToken := Some refresh;
     accessTokenExpiresAt := expiresAt expiresIn;
     isInitialized := isInitialized st |}.

(** Modelled from the spec: [clearDeviceSession] of [stores/session-store].
    "Clearing the device session resets deviceInfo, both tokens, and
    isDeviceAuthenticated to their empty/false state, but does not
    necessarily clear tenant/tenantSlug". *)
Definition clearDeviceSession (st : SessionState) : SessionState :=
  {| tenantSlug := tenantSlug st;
     tenant := tenant st;
     deviceInfo := None;
     isDeviceAuthenticated := false;
     accessToken := None;
     refreshToken := None;
     accessTokenExpiresAt := accessTokenExpiresAt st;
     isInitialized := isInitialized st |}.

End SessionStore.

Import SessionStore.

(** ** The session provider *)

Module SessionProvider.

(** Proactive refresh threshold: 5 minutes before expiration. *)
Definition REFRESH_THRESHOLD_MS : Z := 5 * 60 * 1000.
(** Interval between two checks: 1 minute. *)
Definition REFRESH_CHECK_INTERVAL_MS : Z := 60 * 1000.

(** How a call ends: it returns (a promise resolves) or it throws (a promise
    rejects) with some value. *)
Inductive Outcome (A : Type) : Type :=
| Returns (a : A)
| Throws (e : JsValue).
Arguments Returns {A} a.
Arguments Throws {A} e.

(** Response of [refreshDeviceToken]. *)
Record TokenResponse : Type := mkTokenResponse {
  resp_accessToken : string;
  resp_refreshToken : string;
  resp_expiresIn : Z
}.

(** One entry per call that leaves the component, with the way it ended
    where the callee can fail. *)
Inductive Event : Type :=
| Console (msg : string)
| ApiSetTenantId (id : string) (r : Outcome unit)
| GetCurrentTenant (r : Outcome Tenant)
| RefreshDeviceToken (token : string) (r : Outcome TokenResponse)
| SetTenant (s : string) (t : Tenant)
| SetInitialized (v : bool)
| UpdateTokens (access refresh : string) (expiresIn : Z)
| ClearDeviceSession
| SetTokenStore
| SetInterval (id : nat)
| ClearInterval (id : nat).

(** Everything the provider talks to and whose code is elsewhere: the two
    store members that read the clock, and the API client, whose answers may
    depend on all that happened before. *)
Record Env : Type := mkEnv {
  isTokenExpiringSoon : SessionState -> Z -> bool;
  expiresAt : Z -> option Z;
  setTenantId_outcome : list Event -> string -> Outcome unit;
  getCurrentTenant_outcome : list Event -> Outcome Tenant;
  refreshDeviceToken_outcome : list Event -> string -> Outcome TokenResponse
}.

(** The store, the trace of calls so far, and the host's live intervals. *)
Record World : Type := mkWorld {
  store : SessionState;
  trace : list Event;
  intervals : list nat;
  nextIntervalId : nat
}.

Definition M (A : Type) : Type := World -> Outcome A * World.

#[global] Instance M_ret : MRet M := fun A a w => (Returns a, w).

#[global] Instance M_bind : MBind M := fun A B k m w =>
  match m w with
  | (Returns a, w') => k a w'
  | (Throws e, w') => (Throws e, w')
  end.

(** [try { m } catch (error) { h error }] *)
Definition try_catch {A} (m : M A) (h : JsValue -> M A) : M A :=
  fun w =>
    match m w with
    | (Returns a, w') => (Returns a, w')
    | (Throws e, w') => h e w'
    end.

(** A call to an [async] function whose promise is dropped. *)
Definition spawn (m : M unit) : M unit :=
  fun w => (Returns tt, snd (m w)).

Definition log_event (ev : Event) (w : World) : World :=
  {| store := store w;
     trace := trace w ++ [ev];
     intervals := intervals w;
     nextIntervalId := nextIntervalId w |}.

Definition with_store (st : SessionState) (w : World) : World :=
  {| store := st;
     trace := trace w;
     intervals := intervals w;
     nextIntervalId := nextIntervalId w |}.

Definition emit (ev : Event) : M unit := fun w => (Returns tt, log_event ev w).

(** A store action: logged, then applied. *)
Definition action (ev : Event) (f : SessionState -> SessionState) : M unit :=
  fun w => (Returns tt, with_store (f (store w)) (log_event ev w)).

(** [console.log], [console.warn] and [console.error]: the message only. *)
Definition console (msg : string) : M unit := emit (Console msg).

(** [useSessionStore.getState()] *)
Definition getState : M SessionState := fun w => (Returns (store w), w).

(** The events a computation adds to the trace it starts from. *)
Definition emitted {A} (m : M A) (w : World) : list Event :=
  drop (length (trace w)) (trace (snd (m w))).

(** *** Reading a trace *)

(** The first line [initSession] prints: one per initialization pass. *)
Definition is_init_pass (ev : Event) : bool :=
  match ev with
  | Console msg => String.eqb msg "[SessionProvider] initSession"
  | _ => false
  end.

Definition is_setInitialized_true (ev : Event) : bool :=
  match ev with
  | SetInitialized true => true
  | _ => false
  end.

Definition is_refresh_call (ev : Event) : bool :=
  match ev with
  | RefreshDeviceToken _ _ => true
  | _ => false
  end.

Definition is_tenant_fetch (ev : Event) : bool :=
  match ev with
  | GetCurrentTenant _ => true
  | _ => false
  end.

(** The calls that write the store. *)
Definition is_store_action (ev : Event) : bool :=
  match ev with
  | SetTenant _ _ | SetInitialized _ | UpdateTokens _ _ _ | ClearDeviceSession => true
  | _ => false
  end.

Definition count (p : Event -> bool) (tr : list Event) : nat :=
  length (List.filter p tr).

(** "The error carries a status field equal to [n]". *)
Definition carries_status (error : JsValue) (n : Z) : Prop :=
  exists props, error = JsObject props /\ lookup_prop "status" props = Some (JsNumber n).

Section WithEnv.

Variable env : Env.

Definition setTenant (s : string) (t : Tenant) : M unit :=
  action (SetTenant s t) (SessionStore.setTenant s t).

Definition setInitialized (v : bool) : M unit :=
  action (SetInitialized v) (SessionStore.setInitialized v).

Definition updateTokens (access refresh : string) (expiresIn : Z) : M unit :=
  action (UpdateTokens access refresh expiresIn)
         (SessionStore.updateTokens (expiresAt env) access refresh expiresIn).

Definition clearDeviceSession : M unit :=
  action ClearDeviceSession SessionStore.clearDeviceSession.

(** [api.setTenantId(id)] *)
Definition api_setTenantId (id : string) : M unit :=
  fun w =>
    let r := setTenantId_outcome env (trace w) id in
    (r, log_event (ApiSetTenantId id r) w).

(** [await getCurrentTenant()] *)
Definition getCurrentTenant : M Tenant :=
  fun w =>
    let r := getCurrentTenant_outcome env (trace w) in
    (r, log_event (GetCurrentTenant r) w).

(** [await refreshDeviceToken(token)] *)
Definition refreshDeviceToken (token : string) : M TokenResponse :=
  fun w =>
    let r := refreshDeviceToken_outcome env (trace w) token in
    (r, log_event (RefreshDeviceToken token r) w).

(** *** [proactiveRefresh] (lines 52-75) *)

(** [state.isDeviceAuthenticated && state.refreshToken], the negation of
    the test of line 56: the refresh token, when both are truthy. *)
Definition deviceRefreshToken (state : SessionState) : option string :=
  match refreshToken state with
  | Some token =>
    if isDeviceAuthenticated state && truthy_string (Some token)
    then Some token
    else None
  | None => None
  end.

Definition proactiveRefresh : M unit :=
  state ← getState;
  match deviceRefreshToken state with
  | None =>
    (* Only refresh if we have a device session *)
    mret tt
  | Some token =>
    (* Check if token is expiring soon (within threshold) *)
    if negb (isTokenExpiringSoon env state REFRESH_THRESHOLD_MS) then mret tt
    else
      console "[SessionProvider] Token expiring soon, proactively refreshing..." ;;
      try_catch
        (response ← refreshDeviceToken token;
         updateTokens (resp_accessToken response) (resp_refreshToken response)
                      (resp_expiresIn response) ;;
         console "[SessionProvider] Proactive token refresh successful")
        (fun error =>
           (* Don't clear session on proactive refresh failure *)
           console "[SessionProvider] Proactive token refresh failed:")
  end.

(** *** [initSession] (lines 95-158)

    [tenantSlug] is the prop and [storedTenantSlug] the store's slug as the
    render that scheduled the effect saw it; everything else is read from the
    store at entry. *)

(** [tenantSlug || storedTenantSlug || tenant.slug] (line 129) *)
Definition slugToUse (tenantSlug storedTenantSlug : option string) (tenant : Tenant) : string :=
  or_string (or_else tenantSlug storedTenantSlug) (slug tenant).

(** The [catch] clause of the tenant fetch (lines 132-145). *)
Definition onFetchError (error : JsValue) : M unit :=
  console "[SessionProvider] Failed to fetch tenant:" ;;
  if truthy error && typeof_object error && has_prop "status" error then
    let status := get_prop "status" error in
    if strict_eq_number status 401 || strict_eq_number status 403 then
      console "[SessionProvider] Auth invalid after token refresh failed, clearing session" ;;
      clearDeviceSession
    else mret tt
  else mret tt.

(** [isAuth && device && accessToken] (line 114): the device, when all three
    are truthy. *)
Definition authenticatedDevice (state : SessionState) : option DeviceInfo :=
  match deviceInfo state with
  | Some device =>
    if isDeviceAuthenticated state && truthy_string (accessToken state)
    then Some device
    else None
  | None => None
  end.

Definition initSession (tenantSlug storedTenantSlug : option string) : M unit :=
  (* Read directly from store state to get latest hydrated values *)
  state ← getState;
  let persistedTenant := tenant state in
  console "[SessionProvider] initSession" ;;
  try_catch
    (match authenticatedDevice state with
     | Some device =>
       (* If device is already authenticated, set tenant from device info *)
       console "[SessionProvider] Device authenticated" ;;
       api_setTenantId (tenantId device) ;;
       match persistedTenant with
       | Some _ =>
         (* Use persisted tenant if available (avoids unnecessary API call) *)
         console "[SessionProvider] Using persisted tenant" ;;
         setInitialized true
       | None =>
         (* Fetch full tenant info via protected endpoint *)
         try_catch
           (console "[SessionProvider] Fetching tenant from API" ;;
            tenant ← getCurrentTenant;
            setTenant (slugToUse tenantSlug storedTenantSlug tenant) tenant ;;
            console "[SessionProvider] Tenant fetched successfully")
           onFetchError ;;
         setInitialized true
       end
     | None =>
       (* Not authenticated - will redirect to setup *)
       console "[SessionProvider] Not authenticated" ;;
       setInitialized true
     end)
    (fun error =>
       console "[SessionProvider] Init error:" ;;
       setInitialized true).

End WithEnv.

(** *** The ways through the two functions

    Each constructor is one control-flow path, with the events it adds to
    the trace and the store it leaves.  [initSession_paths] and
    [proactiveRefresh_paths] below show that a run follows one of them. *)

(** [w] with another store and more events. *)
Definition extend (w : World) (st' : SessionState) (evs : list Event) : World :=
  {| store := st';
     trace := trace w ++ evs;
     intervals := intervals w;
     nextIntervalId := nextIntervalId w |}.

(** The test of lines 137-139 as one condition. *)
Definition authInvalid (error : JsValue) : bool :=
  truthy error && typeof_object error && has_prop "status" error
  && (strict_eq_number (get_prop "status" error) 401
      || strict_eq_number (get_prop "status" error) 403).

Inductive InitPath (tenantSlug storedTenantSlug : option string) (st : SessionState)
  : list Event -> SessionState -> Prop :=
| NotAuthenticated :
    authenticatedDevice st = None ->
    InitPath tenantSlug storedTenantSlug st
      [Console "[SessionProvider] initSession";
       Console "[SessionProvider] Not authenticated";
       SetInitialized true]
      (SessionStore.setInitialized true st)
| SetTenantIdThrew device e :
    authenticatedDevice st = Some device ->
    InitPath tenantSlug storedTenantSlug st
      [Console "[SessionProvider] initSession";
       Console "[SessionProvider] Device authenticated";
       ApiSetTenantId (tenantId device) (Throws e);
       Console "[SessionProvider] Init error:";
       SetInitialized true]
      (SessionStore.setInitialized true st)
| UsedPersistedTenant device t :
    authenticatedDevice st = Some device ->
    tenant st = Some t ->
    InitPath tenantSlug storedTenantSlug st
      [Console "[SessionProvider] initSession";
       Console "[SessionProvider] Device authenticated";
       ApiSetTenantId (tenantId device) (Returns tt);
       Console "[SessionProvider] Using persisted tenant";
       SetInitialized true]
      (SessionStore.setInitialized true st)
| TenantFetched device t :
    authenticatedDevice st = Some device ->
    tenant st = None ->
    InitPath tenantSlug storedTenantSlug st
      [Console "[SessionProvider] initSession";
       Console "[SessionProvider] Device authenticated";
       ApiSetTenantId (tenantId device) (Returns tt);
       Console "[SessionProvider] Fetching tenant from API";
       GetCurrentTenant (Returns t);
       SetTenant (slugToUse tenantSlug storedTenantSlug t) t;
       Console "[SessionProvider] Tenant fetched successfully";
       SetInitialized true]
      (SessionStore.setInitialized true
         (SessionStore.setTenant (slugToUse tenantSlug storedTenantSlug t) t st))
| FetchFailedAuthInvalid device error :
    authenticatedDevice st = Some device ->
    tenant st = None ->
    authInvalid error = true ->
    InitPath tenantSlug storedTenantSlug st
      [Console "[SessionProvider] initSession";
       Console "[SessionProvider] Device authenticated";
       ApiSetTenantId (tenantId device) (Returns tt);
       Console "[SessionProvider] Fetching tenant from API";
       GetCurrentTenant (Throws error);
       Console "[SessionProvider] Failed to fetch tenant:";
       Console "[SessionProvider] Auth invalid after token refresh failed, clearing session";
       ClearDeviceSession;
       SetInitialized true]
      (SessionStore.setInitialized true (SessionStore.clearDeviceSession st))
| FetchFailedTransient device error :
    authenticatedDevice st = Some device ->
    tenant st = None ->
    authInvalid error = false ->
    InitPath tenantSlug storedTenantSlug st
      [Console "[SessionProvider] initSession";
       Console "[SessionProvider] Device authenticated";
       ApiSetTenantId (tenantId device) (Returns tt);
       Console "[SessionProvider] Fetching tenant from API";
       GetCurrentTenant (Throws error);
       Console "[SessionProvider] Failed to fetch tenant:";
       SetInitialized true]
      (SessionStore.setInitialized true st).

Inductive RefreshPath (env : Env) (st : SessionState)
  : list Event -> SessionState -> Prop :=
| NotDue :
    isDeviceAuthenticated st = false
    \/ truthy_string (refreshToken st) = false
    \/ isTokenExpiringSoon env st REFRESH_THRESHOLD_MS = false ->
    RefreshPath env st [] st
| Refreshed token response :
    isDeviceAuthenticated st = true ->
    refreshToken st = Some token ->
    token <> "" ->
    isTokenExpiringSoon env st REFRESH_THRESHOLD_MS = true ->
    RefreshPath env st
      [Console "[SessionProvider] Token expiring soon, proactively refreshing...";
       RefreshDeviceToken token (Returns response);
       UpdateTokens (resp_accessToken response) (resp_refreshToken response)
                    (resp_expiresIn response);
       Console "[SessionProvider] Proactive token refresh successful"]
      (SessionStore.updateTokens (expiresAt env)
         (resp_accessToken response) (resp_refreshToken response)
         (resp_expiresIn response) st)
| RefreshFailed token error :
    isDeviceAuthenticated st = true ->
    refreshToken st = Some token ->
    token <> "" ->
    isTokenExpiringSoon env st REFRESH_THRESHOLD_MS = true ->
    RefreshPath env st
      [Console "[SessionProvider] Token expiring soon, proactively refreshing...";
       RefreshDeviceToken token (Throws error);
       Console "[SessionProvider] Proactive token refresh failed:"]
      st.

(** The fields [clearDeviceSession] resets. *)
Definition deviceSession (st : SessionState)
  : option DeviceInfo * bool * option string * option string :=
  (deviceInfo st, isDeviceAuthenticated st, accessToken st, refreshToken st).

Definition absent_or_empty (s : option string) : Prop :=
  s = None \/ s = Some "".

(** The priority order read with "present" as "supplied": the first of the
    prop, the stored slug and the fetched slug that is there at all. *)
Definition slugByPresence (tenantSlug storedTenantSlug : option string) (tenant : Tenant)
  : string :=
  match tenantSlug, storedTenantSlug with
  | Some s, _ => s
  | None, Some s => s
  | None, None => slug tenant
  end.

End SessionProvider.

(** ** The component: hooks, effects and the host's timers *)

Module Component.

Import SessionProvider.

(** What a mounted [SessionProvider] keeps between renders. *)
Record Provider : Type := mkProvider {
  (** [useState(false)] *)
  isHydrated : bool;
  (** [useRef(false)], the [.current] of it *)
  hasInitialized : bool;
  (** the [tenantSlug] prop of the latest render *)
  tenantSlugProp : option string;
  (** the [intervalId] the pending cleanup of the interval effect closes over *)
  intervalCleanup : option nat;
  mounted : bool
}.

(** [setInterval(proactiveRefresh, REFRESH_CHECK_INTERVAL_MS)]: the host
    hands out a fresh id and keeps the interval alive until it is cleared. *)
Definition setInterval : M nat :=
  fun w =>
    let id := nextIntervalId w in
    (Returns id,
     {| store := store w;
        trace := trace w ++ [SetInterval id];
        intervals := id :: intervals w;
        nextIntervalId := S id |}).

(** [clearInterval(id)] *)
Definition clearInterval (id : nat) : M unit :=
  fun w =>
    (Returns tt,
     {| store := store w;
        trace := trace w ++ [ClearInterval id];
        intervals := List.filter (fun j => negb (Nat.eqb j id)) (intervals w);
        nextIntervalId := nextIntervalId w |}).

Section WithEnv.

Variable env : Env.

(** Setup token store for API client (lines 38-49). *)
Definition tokenStoreEffect (c : Provider) : M unit :=
  if negb (isHydrated c) then mret tt
  else emit SetTokenStore.

(** Setup proactive refresh interval (lines 78-88).  The result is the
    argument of the cleanup the effect returns, if it returns one. *)
Definition intervalEffect (c : Provider) : M (option nat) :=
  if negb (isHydrated c) then mret None
  else
    (* Run immediately on mount (in case we're already close to expiration) *)
    spawn (proactiveRefresh env) ;;
    (* Set up interval for periodic checks *)
    intervalId ← setInterval;
    mret (Some intervalId).

(** [() => clearInterval(intervalId)] *)
Definition runCleanup (cleanup : option nat) : M unit :=
  match cleanup with
  | Some intervalId => clearInterval intervalId
  | None => mret tt
  end.

(** Initialize session (only once after hydration) (lines 91-161).
    [storedTenantSlug] is what [useSessionStore()] gave the render. *)
Definition initEffect (storedTenantSlug : option string) (c : Provider) : M Provider :=
  if negb (isHydrated c) || hasInitialized c then mret c
  else
    let c' := {| isHydrated := isHydrated c;
                 hasInitialized := true;
                 tenantSlugProp := tenantSlugProp c;
                 intervalCleanup := intervalCleanup c;
                 mounted := mounted c |} in
    spawn (initSession env (tenantSlugProp c) storedTenantSlug) ;;
    mret c'.

(** A render followed by its commit.  The effects run in the order in which
    the component declares them, after the cleanups of those that run
    again.  The token-store and interval effects
    depend on [isHydrated] and on store actions, which keep their identity,
    so they run again exactly when [isHydrated] changed; the initialization
    effect is run at every commit, which covers every way its dependency
    list can compare. *)
Definition commit (hydratedChanged : bool) (c : Provider) : M Provider :=
  fun w =>
    let storedTenantSlug := tenantSlug (store w) in
    (c1 ←
       (if hydratedChanged then
          runCleanup (intervalCleanup c) ;;
          tokenStoreEffect c ;;
          cleanup ← intervalEffect c;
          mret {| isHydrated := isHydrated c;
                  hasInitialized := hasInitialized c;
                  tenantSlugProp := tenantSlugProp c;
                  intervalCleanup := cleanup;
                  mounted := mounted c |}
        else mret c);
     initEffect storedTenantSlug c1) w.

(** What can happen to a mounted provider. *)
Inductive Input : Type :=
(** the render scheduled by [setIsHydrated(true)] (lines 33-35) *)
| Hydrated
(** somebody writes the store; its subscribers render again *)
| StoreUpdate (st : SessionState)
(** the parent renders the provider with another [tenantSlug] *)
| PropsChange (s : option string)
(** [REFRESH_CHECK_INTERVAL_MS] have passed: live intervals fire *)
| Tick
| Unmount.

Definition System : Type := Provider * World.

(** The outcome of an effect is of no interest to the host. *)
Definition exec {A} (dflt : A) (m : M A) (w : World) : A * World :=
  match m w with
  | (Returns a, w') => (a, w')
  | (Throws _, w') => (dflt, w')
  end.

(** Each live interval calls [proactiveRefresh] once. *)
Definition fireIntervals (w : World) : World :=
  fold_left (fun w' _ => snd (spawn (proactiveRefresh env) w')) (intervals w) w.

Definition step (sys : System) (i : Input) : System :=
  let (c, w) := sys in
  match i with
  | Hydrated =>
    if mounted c then
      let c' := {| isHydrated := true;
                   hasInitialized := hasInitialized c;
                   tenantSlugProp := tenantSlugProp c;
                   intervalCleanup := intervalCleanup c;
                   mounted := mounted c |} in
      exec c' (commit (negb (isHydrated c)) c') w
    else (c, w)
  | StoreUpdate st =>
    if mounted c then exec c (commit false c) (with_store st w)
    else (c, with_store st w)
  | PropsChange s =>
    if mounted c then
      let c' := {| isHydrated := isHydrated c;
                   hasInitialized := hasInitialized c;
                   tenantSlugProp := s;
                   intervalCleanup := intervalCleanup c;
                   mounted := mounted c |} in
      exec c' (commit false c') w
    else (c, w)
  | Tick => (c, fireIntervals w)
  | Unmount =>
    if mounted c then
      let c' := {| isHydrated := isHydrated c;
                   hasInitialized := hasInitialized c;
                   tenantSlugProp := tenantSlugProp c;
                   intervalCleanup := None;
                   mounted := false |} in
      (c', snd (runCleanup (intervalCleanup c) w))
    else (c, w)
  end.

(** The first render and its commit: [isHydrated] is still false. *)
Definition mount (tenantSlug : option string) (st : SessionState) : System :=
  let c := {| isHydrated := false;
              hasInitialized := false;
              tenantSlugProp := tenantSlug;
              intervalCleanup := None;
              mounted := true |} in
  exec c (commit true c)
       {| store := st; trace := []; intervals := []; nextIntervalId := 0 |}.

Definition run (sys : System) (inputs : list Input) : System :=
  fold_left step inputs sys.

End WithEnv.

(** *** Reading the state of a mounted provider *)

(** How often a trace shows the start of an initialization pass, a call of
    [setInitialized(true)], a call of [refreshDeviceToken]. *)
Definition passes (w : World) : nat := count is_init_pass (trace w).
Definition initializations (w : World) : nat := count is_setInitialized_true (trace w).
Definition refreshCalls (w : World) : nat := count is_refresh_call (trace w).

(** The intervals that are alive when [cleanup] is the pending cleanup. *)
Definition owned (cleanup : option nat) : list nat :=
  match cleanup with
  | Some intervalId => [intervalId]
  | None => []
  end.

(** What every reachable state satisfies: the latch counts the passes, each
    pass has marked the store initialized once, a hydrated provider has
    taken its pass, and the host's live intervals are the one the pending
    cleanup will clear. *)
Definition Inv (sys : System) : Prop :=
  passes (snd sys) = (if hasInitialized (fst sys) then 1 else 0)%nat
  /\ initializations (snd sys) = passes (snd sys)
  /\ intervals (snd sys) = owned (intervalCleanup (fst sys))
  /\ (isHydrated (fst sys) = true -> hasInitialized (fst sys) = true)
  /\ (mounted (fst sys) = false -> intervalCleanup (fst sys) = None).

End Component.

(** ** The modifier pickers *)

Module Modifiers.

Record Modifier : Type := mkModifier {
  id : string;
  name : string;
  price : Z;
  isAvailable : bool
}.

Record ModifierGroup : Type := mkModifierGroup {
  groupName : string;
  minSelections : Z;
  maxSelections : Z;
  modifiers : list Modifier
}.

(** One rendered [<button>]: its key, its [disabled] attribute, whether it
    is drawn as selected, and the calls to [onToggle] that one run of its
    [onClick] handler makes. *)
Record Button : Type := mkButton {
  key : string;
  disabled : bool;
  highlighted : bool;
  onClick : list Modifier
}.

Section Pickers.

Variable group : ModifierGroup.
Variable selectedModifierIds : gset string.

(** [group.modifiers.filter(m => selectedModifierIds.has(m.id)).length] *)
Definition selectedCount : nat :=
  length (List.filter (fun m => bool_decide (id m ∈ selectedModifierIds)) (modifiers group)).

Definition isRequired : bool := 0 <? minSelections group.
Definition isValid : bool := negb isRequired || (minSelections group <=? Z.of_nat selectedCount).
Definition canSelectMore : bool := Z.of_nat selectedCount <? maxSelections group.
Definition isRadio : bool := maxSelections group =? 1.

(** The body of the [map] of [ModifierChips] (lines 49-76). *)
Definition chipButton (modifier : Modifier) : Button :=
  let isSelected := bool_decide (id modifier ∈ selectedModifierIds) in
  let isDisabled :=
    negb (isAvailable modifier) || (negb isRadio && negb isSelected && negb canSelectMore) in
  {| key := id modifier;
     disabled := isDisabled;
     highlighted := isSelected;
     onClick := if negb isDisabled then [modifier] else [] |}.

Definition ModifierChips : list Button := chipButton <$> modifiers group.

(** The body of the [map] of [ModifierCards] (lines 119-169). *)
Definition cardButton (modifier : Modifier) : Button :=
  let isSelected := bool_decide (id modifier ∈ selectedModifierIds) in
  let isDisabled :=
    negb (isAvailable modifier) || (negb isRadio && negb isSelected && negb canSelectMore) in
  {| key := id modifier;
     disabled := isDisabled;
     highlighted := isSelected;
     onClick := if negb isDisabled then [modifier] else [] |}.

Definition ModifierCards : list Button := cardButton <$> modifiers group.

(** The body of the [map] of [ModifierSegmented] (lines 47-75). *)
Definition segmentedButton (modifier : Modifier) : Button :=
  let isSelected := bool_decide (id modifier ∈ selectedModifierIds) in
  let isDisabled := negb (isAvailable modifier) in
  {| key := id modifier;
     disabled := isDisabled;
     highlighted := isSelected;
     onClick := if negb isDisabled then [modifier] else [] |}.

Definition ModifierSegmented : list Button := segmentedButton <$> modifiers group.

End Pickers.

End Modifiers.

(** ** Sample inputs *)

Module Samples.

Import SessionProvider.

Definition acme : Tenant := mkTenant "acme" [("name", "Acme Diner")].

Definition kiosk : DeviceInfo := mkDeviceInfo "tenant-7" [("name", "Front kiosk")].

(** An authenticated device without a cached tenant. *)
Definition authenticated : SessionState :=
  {| tenantSlug := None;
     tenant := None;
     deviceInfo := Some kiosk;
     isDeviceAuthenticated := true;
     accessToken := Some "access-1";
     refreshToken := Some "refresh-1";
     accessTokenExpiresAt := Some 1700000000000;
     isInitialized := false |}.

(** The same device with the tenant cached. *)
Definition authenticatedWithTenant : SessionState :=
  {| tenantSlug := Some "acme";
     tenant := Some acme;
     deviceInfo := Some kiosk;
     isDeviceAuthenticated := true;
     accessToken := Some "access-1";
     refreshToken := Some "refresh-1";
     accessTokenExpiresAt := Some 1700000000000;
     isInitialized := false |}.

(** The flag and the device are there, the access token is the empty string. *)
Definition emptyAccessToken : SessionState :=
  {| tenantSlug := Some "acme";
     tenant := Some acme;
     deviceInfo := Some kiosk;
     isDeviceAuthenticated := true;
     accessToken := Some "";
     refreshToken := Some "refresh-1";
     accessTokenExpiresAt := Some 1700000000000;
     isInitialized := false |}.

(** Nobody has signed the device in. *)
Definition anonymous : SessionState :=
  {| tenantSlug := None;
     tenant := None;
     deviceInfo := None;
     isDeviceAuthenticated := false;
     accessToken := None;
     refreshToken := None;
     accessTokenExpiresAt := None;
     isInitialized := false |}.

Definition freshTokens : TokenResponse :=
  {| resp_accessToken := "access-2";
     resp_refreshToken := "refresh-2";
     resp_expiresIn := 3600 |}.

Definition unauthorized : JsValue :=
  JsObject [("message", JsString "Unauthorized"); ("status", JsNumber 401)].

Definition serverError : JsValue :=
  JsObject [("message", JsString "Internal Server Error"); ("status", JsNumber 500)].

Definition networkError : JsValue :=
  JsObject [("message", JsString "Failed to fetch")].

(** Every call succeeds; the token is always about to expire. *)
Definition allGood : Env :=
  {| isTokenExpiringSoon := fun _ _ => true;
     expiresAt := fun expiresIn => Some (1700000000000 + expiresIn * 1000);
     setTenantId_outcome := fun _ _ => Returns tt;
     getCurrentTenant_outcome := fun _ => Returns acme;
     refreshDeviceToken_outcome := fun _ _ => Returns freshTokens |}.

(** The API client rejects every request with [error]. *)
Definition failing (error : JsValue) : Env :=
  {| isTokenExpiringSoon := fun _ _ => true;
     expiresAt := fun expiresIn => Some (1700000000000 + expiresIn * 1000);
     setTenantId_outcome := fun _ _ => Returns tt;
     getCurrentTenant_outcome := fun _ => Throws error;
     refreshDeviceToken_outcome := fun _ _ => Throws error |}.

Definition world (st : SessionState) : World :=
  {| store := st; trace := []; intervals := []; nextIntervalId := 0 |}.

(** Two toppings at most; both picks are used up. *)
Definition olives : Modifiers.Modifier := Modifiers.mkModifier "m-olives" "Olives" 150 true.
Definition onions : Modifiers.Modifier := Modifiers.mkModifier "m-onions" "Onions" 100 true.
Definition capers : Modifiers.Modifier := Modifiers.mkModifier "m-capers" "Capers" 200 true.
Definition truffle : Modifiers.Modifier := Modifiers.mkModifier "m-truffle" "Truffle" 900 false.

Definition toppings : Modifiers.ModifierGroup :=
  Modifiers.mkModifierGroup "Toppings" 0 2 [olives; onions; capers; truffle].

Definition picked : gset string := {[ "m-olives"; "m-onions" ]}.

End Samples.

(** ** The badge of the modifier pickers *)

Module Badge.

(** [`${n}`] for an integral number. *)
Definition template (n : Z) : string := NilZero.string_of_int (Z.to_int n).

Inductive BadgeVariant : Type :=
| secondary
| destructive.

Section Badge.

Variable group : Modifiers.ModifierGroup.
Variable selectedModifierIds : gset string.

(** The label of [ModifierChips] (lines 28-35) and of [ModifierCards]
    (lines 95-102). *)
Definition requirementLabel : string :=
  if Modifiers.isRequired group then
    if Modifiers.minSelections group =? Modifiers.maxSelections group
    then ("Select " ++ template (Modifiers.minSelections group))%string
    else ("Select " ++ template (Modifiers.minSelections group)
            ++ "-" ++ template (Modifiers.maxSelections group))%string
  else
    if Modifiers.maxSelections group =? 1 then "Optional"
    else ("Up to " ++ template (Modifiers.maxSelections group))%string.

(** The label of [ModifierSegmented] (lines 26-33). *)
Definition segmentedRequirementLabel : string :=
  if Modifiers.isRequired group then
    if Modifiers.minSelections group =? Modifiers.maxSelections group
    then ("Select " ++ template (Modifiers.minSelections group))%string
    else ("Select " ++ template (Modifiers.minSelections group)
            ++ "-" ++ template (Modifiers.maxSelections group))%string
  else "Optional".

(** [variant={isValid ? 'secondary' : 'destructive'}] *)
Definition badgeVariant : BadgeVariant :=
  if Modifiers.isValid group selectedModifierIds then secondary else destructive.

End Badge.

End Badge.

(** ** [VariantChips] *)

Module Variants.

Record ItemVariant : Type := mkItemVariant {
  id : string;
  name : string;
  priceAdjustment : Z;
  isAvailable : bool
}.

(** One rendered [<button>]: its key, its [disabled] attribute, whether it
    is drawn as selected, the text of the price [<span>] if there is one,
    and the calls to [onSelect] that one run of its [onClick] handler makes. *)
Record Button : Type := mkButton {
  key : string;
  disabled : bool;
  highlighted : bool;
  priceLabel : option string;
  onClick : list ItemVariant
}.

Section VariantChips.

(** [formatCurrency] of [lib/utils], whose code is not available. *)
Variable formatCurrency : Z -> string.

Variable variants : list ItemVariant.
Variable selectedVariantId : option string.
Variable basePrice : Z.

(** The body of the [map] (lines 35-61). *)
Definition variantButton (variant : ItemVariant) : Button :=
  let isSelected := bool_decide (selectedVariantId = Some (id variant)) in
  let totalPrice := basePrice + priceAdjustment variant in
  {| key := id variant;
     disabled := negb (isAvailable variant);
     highlighted := isSelected;
     priceLabel :=
       if negb (priceAdjustment variant =? 0) then
         Some (String.append
                 (if 0 <? priceAdjustment variant then "+" else "")
                 (formatCurrency (priceAdjustment variant)))
       else None;
     onClick := if isAvailable variant then [variant] else [] |}.

(** [None] is the [null] of line 23. *)
Definition VariantChips : option (list Button) :=
  if Nat.eqb (length variants) 0 then None
  else Some (variantButton <$> variants).

End VariantChips.

End Variants.

(** ** [CategorySidebar] *)

Module Categories.

Record Category : Type := mkCategory {
  id : string;
  name : string;
  imageUrl : option string
}.

(** What fills the image box of a tab: the picture, or the first character
    of the name. *)
Inductive Thumbnail : Type :=
| Image (src alt : string)
| Placeholder (initial : string).

(** One rendered tab: key, [aria-selected], image box, caption, and the
    calls to [onSelectCategory] that one run of its [onClick] handler makes. *)
Record Tab : Type := mkTab {
  key : string;
  ariaSelected : bool;
  thumbnail : Thumbnail;
  caption : string;
  onClick : list string
}.

(** [s.charAt(0)]: the empty string when [s] is empty. *)
Definition charAt0 (s : string) : string :=
  match s with
  | EmptyString => ""
  | String c _ => String c ""
  end.

Section CategorySidebar.

Variable categories : list Category.
Variable selectedCategoryId : option string.

(** The body of the [map] (lines 24-72). *)
Definition categoryTab (category : Category) : Tab :=
  let isSelected := bool_decide (Some (id category) = selectedCategoryId) in
  {| key := id category;
     ariaSelected := isSelected;
     thumbnail :=
       match imageUrl category with
       | Some url =>
         if String.eqb url "" then Placeholder (charAt0 (name category))
         else Image url (name category)
       | None => Placeholder (charAt0 (name category))
       end;
     caption := name category;
     onClick := [id category] |}.

Definition CategorySidebar : list Tab := categoryTab <$> categories.

End CategorySidebar.

End Categories.

(** ** What the provider renders, and more readings of its trace *)

Module Output.

Import SessionProvider Component.

(** Show nothing until hydrated to prevent mismatch (lines 163-168):
    [None] is [null]. *)
Definition render {Children : Type} (children : Children) (c : Provider)
  : option Children :=
  if negb (isHydrated c) then None else Some children.

Definition is_setTokenStore (ev : Event) : bool :=
  match ev with
  | SetTokenStore => true
  | _ => false
  end.

Definition is_setTenantId (ev : Event) : bool :=
  match ev with
  | ApiSetTenantId _ _ => true
  | _ => false
  end.

Definition is_updateTokens (ev : Event) : bool :=
  match ev with
  | UpdateTokens _ _ _ => true
  | _ => false
  end.

Definition is_tick (i : Input) : bool :=
  match i with
  | Tick => true
  | _ => false
  end.

(** How often the token store was handed to the API client. *)
Definition registrations (w : World) : nat := count is_setTokenStore (trace w).

(** How many of the inputs are ticks. *)
Definition ticks (inputs : list Input) : nat := length (List.filter is_tick inputs).

(** More of what every reachable state satisfies: before hydration nothing
    has been called and nothing is pending; a hydrated, mounted provider
    holds an interval; the token store is registered once, at hydration. *)
Definition Inv' (sys : System) : Prop :=
  (isHydrated (fst sys) = false ->
   trace (snd sys) = [] /\ intervalCleanup (fst sys) = None)
  /\ (isHydrated (fst sys) = true -> mounted (fst sys) = true ->
      is_Some (intervalCleanup (fst sys)))
  /\ registrations (snd sys) = (if isHydrated (fst sys) then 1 else 0)%nat.

End Output.

(** ** Sample menu *)

Module MenuSamples.

Definition small : Variants.ItemVariant := Variants.mkItemVariant "v-small" "Small" (-50) true.
Definition regular : Variants.ItemVariant := Variants.mkItemVariant "v-regular" "Regular" 0 true.
Definition large : Variants.ItemVariant := Variants.mkItemVariant "v-large" "Large" 150 false.

Definition sizes : list Variants.ItemVariant := [small; regular; large].

(** Prices in cents, printed as they are. *)
Definition cents (n : Z) : string := Badge.template n.

Definition burgers : Categories.Category :=
  Categories.mkCategory "c-burgers" "Burgers" (Some "/img/burgers.png").
Definition drinks : Categories.Category := Categories.mkCategory "c-drinks" "Drinks" None.
Definition sides : Categories.Category := Categories.mkCategory "c-sides" "" (Some "").

Definition menu : list Categories.Category := [burgers; drinks; sides].

End MenuSamples.

(** * Facts *)

Import SessionProvider.

(** ** Running the two asynchronous functions *)

Ltac unfold_ops :=
  cbv beta iota zeta delta
    [initSession proactiveRefresh onFetchError getState console emit action
     setTenant setInitialized updateTokens clearDeviceSession
     api_setTenantId getCurrentTenant refreshDeviceToken try_catch spawn
     mbind mret M_bind M_ret log_event with_store extend
     store trace intervals nextIntervalId].

(** Case analysis on the next answer of the environment. *)
Ltac ask_env :=
  match goal with
  | |- context [setTenantId_outcome ?e ?h ?i] =>
    destruct (setTenantId_outcome e h i) as [[]|?] eqn:?
  | |- context [getCurrentTenant_outcome ?e ?h] =>
    destruct (getCurrentTenant_outcome e h) as [?|?] eqn:?
  | |- context [refreshDeviceToken_outcome ?e ?h ?t] =>
    destruct (refreshDeviceToken_outcome e h t) as [?|?] eqn:?
  end; cbv beta iota zeta.

Ltac path_done c :=
  rewrite <- ?app_assoc; simpl;
  eexists _, _; split; [ eapply c; eauto | reflexivity ].

Lemma authInvalid_unfold error :
  authInvalid error =
    if truthy error && typeof_object error && has_prop "status" error
    then strict_eq_number (get_prop "status" error) 401
         || strict_eq_number (get_prop "status" error) 403
    else false.
Proof.
  unfold authInvalid.
  destruct (truthy error && typeof_object error && has_prop "status" error);
    reflexivity.
Qed.

Lemma initSession_paths env tenantSlug storedTenantSlug w :
  exists evs st',
    InitPath tenantSlug storedTenantSlug (store w) evs st'
    /\ initSession env tenantSlug storedTenantSlug w = (Returns tt, extend w st' evs).
Proof.
  destruct w as [st tr iv nx].
  unfold_ops.
  destruct (authenticatedDevice st) as [d|] eqn:Hd; cbv beta iota zeta;
    [ | path_done NotAuthenticated ].
  ask_env; [ | path_done SetTenantIdThrew ].
  destruct (tenant st) as [t|] eqn:Ht; cbv beta iota zeta;
    [ path_done UsedPersistedTenant | ].
  ask_env; [ path_done TenantFetched | ].
  pose proof (authInvalid_unfold e) as Hinv.
  destruct (truthy e && typeof_object e && has_prop "status" e);
    cbv beta iota zeta; [ | path_done FetchFailedTransient ].
  destruct (strict_eq_number _ 401 || strict_eq_number _ 403);
    cbv beta iota zeta;
    [ path_done FetchFailedAuthInvalid | path_done FetchFailedTransient ].
Qed.

Lemma deviceRefreshToken_Some st token :
  deviceRefreshToken st = Some token <->
  isDeviceAuthenticated st = true /\ refreshToken st = Some token /\ token <> "".
Proof.
  unfold deviceRefreshToken, truthy_string. split.
  - destruct (refreshToken st) as [t|]; [ | discriminate ].
    destruct (isDeviceAuthenticated st); simpl; [ | discriminate ].
    destruct (String.eqb_spec t ""); simpl; [ discriminate | ].
    intros [= ->]. auto.
  - intros (-> & -> & Hne). simpl.
    destruct (String.eqb_spec token ""); [ contradiction | reflexivity ].
Qed.

Lemma deviceRefreshToken_None st :
  deviceRefreshToken st = None ->
  isDeviceAuthenticated st = false \/ truthy_string (refreshToken st) = false.
Proof.
  unfold deviceRefreshToken.
  destruct (refreshToken st) as [t|]; [ | now right ].
  destruct (isDeviceAuthenticated st); [ | now left ].
  destruct (truthy_string (Some t)); [ discriminate | now right ].
Qed.

Lemma proactiveRefresh_paths env w :
  exists evs st',
    RefreshPath env (store w) evs st'
    /\ proactiveRefresh env w = (Returns tt, extend w st' evs).
Proof.
  destruct w as [st tr iv nx].
  assert (Hnop :
    (isDeviceAuthenticated st = false
     \/ truthy_string (refreshToken st) = false
     \/ isTokenExpiringSoon env st REFRESH_THRESHOLD_MS = false) ->
    exists evs st',
      RefreshPath env st evs st'
      /\ (Returns tt, mkWorld st tr iv nx)
         = (Returns tt, mkWorld st' (tr ++ evs) iv nx)).
  { intros H. exists [], st. rewrite app_nil_r. split; [ now apply NotDue | reflexivity ]. }
  unfold_ops.
  destruct (deviceRefreshToken st) as [token|] eqn:Ht; cbv beta iota zeta.
  - apply deviceRefreshToken_Some in Ht as (Ha & Hr & Hne).
    destruct (isTokenExpiringSoon env st REFRESH_THRESHOLD_MS) eqn:Hx; cbn [negb];
      [ | apply Hnop; auto ].
    ask_env.
    + path_done Refreshed.
    + path_done RefreshFailed.
  - apply deviceRefreshToken_None in Ht. apply Hnop. tauto.
Qed.

Lemma emitted_extend {A} (m : M A) w r st' evs :
  m w = (r, extend w st' evs) -> emitted m w = evs.
Proof.
  intros Hm. unfold emitted. rewrite Hm. simpl. apply drop_app_length.
Qed.

(** The code's test for an authentication failure is the plain reading of
    "a status field equal to 401 or 403". *)
Lemma authInvalid_iff error :
  authInvalid error = true <-> carries_status error 401 \/ carries_status error 403.
Proof.
  unfold authInvalid, carries_status. split.
  - destruct error as [ | | b | n | s | props ]; simpl;
      rewrite ?andb_false_r; try discriminate.
    destruct (lookup_prop "status" props) as [v|] eqn:Hv; simpl;
      [ | discriminate ].
    destruct v; simpl; try discriminate.
    intros [H | H]%orb_true_iff; apply Z.eqb_eq in H; subst; eauto.
  - intros [(props & -> & Hv) | (props & -> & Hv)]; simpl; rewrite Hv; reflexivity.
Qed.

Lemma authenticatedDevice_Some st device :
  authenticatedDevice st = Some device <->
  isDeviceAuthenticated st = true /\ deviceInfo st = Some device
  /\ exists token, accessToken st = Some token /\ token <> "".
Proof.
  unfold authenticatedDevice. split.
  - destruct (deviceInfo st) as [d|]; [ | discriminate ].
    destruct (isDeviceAuthenticated st); simpl; [ | discriminate ].
    destruct (accessToken st) as [token|]; simpl; [ | discriminate ].
    destruct (String.eqb_spec token ""); simpl; [ discriminate | ].
    intros [= ->]. eauto.
  - intros (-> & -> & token & -> & Hne). simpl.
    destruct (String.eqb_spec token ""); [ contradiction | reflexivity ].
Qed.

(** Splits on the path an [initSession] run takes and rewrites the run. *)
Ltac init_paths env tenantSlug storedTenantSlug w :=
  let evs := fresh "evs" in
  let st' := fresh "st'" in
  let Hpath := fresh "Hpath" in
  let Hrun := fresh "Hrun" in
  destruct (initSession_paths env tenantSlug storedTenantSlug w)
    as (evs & st' & Hpath & Hrun);
  rewrite ?(emitted_extend _ _ _ _ _ Hrun) in *;
  rewrite ?Hrun in *;
  cbn [snd fst extend store trace] in *.

Ltac refresh_paths env w :=
  let evs := fresh "evs" in
  let st' := fresh "st'" in
  let Hpath := fresh "Hpath" in
  let Hrun := fresh "Hrun" in
  destruct (proactiveRefresh_paths env w) as (evs & st' & Hpath & Hrun);
  rewrite ?(emitted_extend _ _ _ _ _ Hrun) in *;
  rewrite ?Hrun in *;
  cbn [snd fst extend store trace] in *.

(** Membership in an explicit list of events. *)
Ltac in_events :=
  repeat match goal with
         | H : In _ (_ :: _) |- _ => destruct H as [H | H]; [ try discriminate H | ]
         | H : In _ [] |- _ => destruct H
         | H : @eq Event _ _ \/ _ |- _ => destruct H as [H | H]; [ try discriminate H | ]
         | H : False |- _ => destruct H
         end.

(** ** Initialization *)

(** C1. Whatever the store holds at entry and however [api.setTenantId] and
    the tenant fetch end, [initSession] returns, the last call it makes is
    [setInitialized(true)], and the store it leaves is marked initialized. *)
Theorem initSession_always_marks_initialized
    (env : Env) (tenantSlug storedTenantSlug : option string) (w : World) :
  exists evs w',
    initSession env tenantSlug storedTenantSlug w = (Returns tt, w')
    /\ trace w' = trace w ++ evs ++ [SetInitialized true]
    /\ isInitialized (store w') = true.
Proof.
  init_paths env tenantSlug storedTenantSlug w.
  destruct Hpath;
    match goal with
    | |- context [extend w ?s ?l] =>
      exists (removelast l), (extend w s l)
    end; simpl; auto.
Qed.

(** C2. The device is authenticated, no tenant is cached, and the tenant
    fetch of the initialization pass fails with [error].  Then
    [clearDeviceSession] is called exactly when [error] carries a status
    field equal to 401 or 403, in which case the device session is reset;
    for every other error (a status of 500, no status field at all) the
    device session stays as it was; either way the store ends up marked
    initialized. *)
Theorem fetch_failure_clears_session_iff_401_403
    (env : Env) (tenantSlug storedTenantSlug : option string) (w : World)
    (device : DeviceInfo) (token : string) (error : JsValue) :
  isDeviceAuthenticated (store w) = true ->
  deviceInfo (store w) = Some device ->
  accessToken (store w) = Some token ->
  tenant (store w) = None ->
  In (GetCurrentTenant (Throws error))
     (emitted (initSession env tenantSlug storedTenantSlug) w) ->
  let evs := emitted (initSession env tenantSlug storedTenantSlug) w in
  let w' := snd (initSession env tenantSlug storedTenantSlug w) in
  (In ClearDeviceSession evs
     <-> carries_status error 401 \/ carries_status error 403)
  /\ (carries_status error 401 \/ carries_status error 403 ->
      deviceSession (store w') = (None, false, None, None))
  /\ (~ (carries_status error 401 \/ carries_status error 403) ->
      deviceSession (store w') = deviceSession (store w))
  /\ isInitialized (store w') = true.
Proof.
  intros _ _ _ _. cbv zeta.
  init_paths env tenantSlug storedTenantSlug w.
  intros Hfail.
  destruct Hpath; in_events.
  - (* 401 or 403 *)
    injection Hfail as <-.
    match goal with H : authInvalid _ = true |- _ => apply authInvalid_iff in H end.
    repeat split; simpl; auto 10. tauto.
  - (* anything else *)
    injection Hfail as <-.
    match goal with
    | H : authInvalid _ = false |- _ =>
      apply not_true_iff_false in H; rewrite authInvalid_iff in H
    end.
    repeat split; simpl; auto; try tauto.
    intros Hin. in_events.
Qed.

Lemma fetch_failure_clears_session_iff_401_403_witness :
  let w := Samples.world Samples.authenticated in
  let run := initSession (Samples.failing Samples.serverError) None None in
  (In ClearDeviceSession (emitted run w)
     <-> carries_status Samples.serverError 401 \/ carries_status Samples.serverError 403)
  /\ (carries_status Samples.serverError 401 \/ carries_status Samples.serverError 403 ->
      deviceSession (store (snd (run w))) = (None, false, None, None))
  /\ (~ (carries_status Samples.serverError 401 \/ carries_status Samples.serverError 403) ->
      deviceSession (store (snd (run w))) = deviceSession (store w))
  /\ isInitialized (store (snd (run w))) = true.
Proof.
  apply (fetch_failure_clears_session_iff_401_403
           (Samples.failing Samples.serverError) None None
           (Samples.world Samples.authenticated)
           Samples.kiosk "access-1" Samples.serverError);
    try reflexivity.
  vm_compute. tauto.
Defined.

(** C4, as the code has it.  When the tenant fetch of the initialization
    pass succeeds with record [t], [setTenant] is called with [t] and with
    the first of these that applies: the [tenantSlug] prop if it is a
    non-empty string, else the stored slug if it is a non-empty string, else
    [t.slug]; the store then holds that slug and [t]. *)
Theorem fetched_tenant_slug_priority
    (env : Env) (tenantSlug storedTenantSlug : option string) (w : World)
    (t : Tenant) :
  In (GetCurrentTenant (Returns t))
     (emitted (initSession env tenantSlug storedTenantSlug) w) ->
  let evs := emitted (initSession env tenantSlug storedTenantSlug) w in
  let w' := snd (initSession env tenantSlug storedTenantSlug w) in
  let chosen := slugToUse tenantSlug storedTenantSlug t in
  In (SetTenant chosen t) evs
  /\ SessionStore.tenantSlug (store w') = Some chosen
  /\ tenant (store w') = Some t
  /\ (forall s, tenantSlug = Some s -> s <> "" -> chosen = s)
  /\ (forall s, absent_or_empty tenantSlug ->
                storedTenantSlug = Some s -> s <> "" -> chosen = s)
  /\ (absent_or_empty tenantSlug -> absent_or_empty storedTenantSlug ->
      chosen = slug t).
Proof.
  cbv zeta.
  init_paths env tenantSlug storedTenantSlug w.
  intros Hok.
  destruct Hpath; in_events.
  injection Hok as <-.
  split; [ simpl; auto 10 | ].
  split; [ reflexivity | ].
  split; [ reflexivity | ].
  unfold slugToUse, or_else, or_string, truthy_string, absent_or_empty.
  repeat split.
  - intros s -> Hs. apply String.eqb_neq in Hs.
    rewrite Hs. simpl. now rewrite Hs.
  - intros s [-> | ->] -> Hs; apply String.eqb_neq in Hs; simpl; now rewrite Hs.
  - intros [-> | ->] [-> | ->]; reflexivity.
Qed.

Lemma fetched_tenant_slug_priority_witness :
  let w := Samples.world Samples.authenticated in
  let run := initSession Samples.allGood (Some "diner") (Some "stored") in
  In (SetTenant "diner" Samples.acme) (emitted run w)
  /\ SessionStore.tenantSlug (store (snd (run w))) = Some "diner"
  /\ tenant (store (snd (run w))) = Some Samples.acme.
Proof.
  destruct (fetched_tenant_slug_priority
              Samples.allGood (Some "diner") (Some "stored")
              (Samples.world Samples.authenticated) Samples.acme)
    as (H1 & H2 & H3 & _).
  - vm_compute. auto 10.
  - auto.
Defined.

(** C4 as stated fails: the prop is supplied, as the empty string, and the
    slug that is stored with the fetched tenant is the previously stored one.
    Likewise a stored slug that is the empty string gives way to the fetched
    one. *)
Lemma slug_priority_counterexample :
  let w := Samples.world Samples.authenticated in
  let run := initSession Samples.allGood (Some "") (Some "stored") in
  In (GetCurrentTenant (Returns Samples.acme)) (emitted run w)
  /\ slugByPresence (Some "") (Some "stored") Samples.acme = ""
  /\ In (SetTenant "stored" Samples.acme) (emitted run w)
  /\ SessionStore.tenantSlug (store (snd (run w))) = Some "stored"
  /\ SessionStore.tenantSlug (store (snd (run w)))
     <> Some (slugByPresence (Some "") (Some "stored") Samples.acme)
  /\ slugToUse None (Some "") Samples.acme = "acme"
  /\ slugByPresence None (Some "") Samples.acme = "".
Proof.
  vm_compute. repeat split; auto 10. discriminate.
Qed.

(** C9. An empty-string [tenantSlug] prop is treated as no prop at all: the
    pass runs as if the prop were absent, and the slug falls through to the
    stored slug, and from an absent or empty stored slug to the fetched one.
    So a supplied prop does not always win: with the prop [""] and the
    stored slug ["stored"], the slug used is ["stored"]. *)
Theorem empty_slug_prop_is_treated_as_absent
    (env : Env) (storedTenantSlug : option string) (t : Tenant) (w : World) :
  initSession env (Some "") storedTenantSlug w = initSession env None storedTenantSlug w
  /\ slugToUse (Some "") storedTenantSlug t = or_string storedTenantSlug (slug t)
  /\ slugToUse (Some "") (Some "stored") t = "stored"
  /\ slugToUse (Some "") (Some "stored") t <> slugByPresence (Some "") (Some "stored") t.
Proof.
  repeat split. discriminate.
Qed.

(** C7, as the code has it.  The device flag is set, the device record is
    there, the access token is a non-empty string and a tenant is cached.
    Then the pass fetches no tenant, calls [api.setTenantId] with the
    device's tenant id, leaves the cached tenant and slug alone, and marks
    the store initialized. *)
Theorem persisted_tenant_skips_fetch
    (env : Env) (tenantSlug storedTenantSlug : option string) (w : World)
    (device : DeviceInfo) (token : string) (t : Tenant) :
  isDeviceAuthenticated (store w) = true ->
  deviceInfo (store w) = Some device ->
  accessToken (store w) = Some token ->
  token <> "" ->
  tenant (store w) = Some t ->
  let evs := emitted (initSession env tenantSlug storedTenantSlug) w in
  let w' := snd (initSession env tenantSlug storedTenantSlug w) in
  count is_tenant_fetch evs = 0%nat
  /\ (exists r, In (ApiSetTenantId (tenantId device) r) evs)
  /\ tenant (store w') = Some t
  /\ SessionStore.tenantSlug (store w') = SessionStore.tenantSlug (store w)
  /\ isInitialized (store w') = true.
Proof.
  intros Hauth Hdev Htok Hne Hten. cbv zeta.
  assert (authenticatedDevice (store w) = Some device) as Hd.
  { apply authenticatedDevice_Some. eauto 6. }
  init_paths env tenantSlug storedTenantSlug w.
  destruct Hpath; try congruence.
  - replace device0 with device by congruence.
    repeat split; simpl; eauto 6.
  - replace device0 with device by congruence.
    repeat split; simpl; eauto 6.
Qed.

Lemma persisted_tenant_skips_fetch_witness :
  let w := Samples.world Samples.authenticatedWithTenant in
  let run := initSession Samples.allGood None (Some "acme") in
  count is_tenant_fetch (emitted run w) = 0%nat
  /\ (exists r, In (ApiSetTenantId "tenant-7" r) (emitted run w))
  /\ tenant (store (snd (run w))) = Some Samples.acme
  /\ SessionStore.tenantSlug (store (snd (run w))) = Some "acme"
  /\ isInitialized (store (snd (run w))) = true.
Proof.
  apply (persisted_tenant_skips_fetch
           Samples.allGood None (Some "acme")
           (Samples.world Samples.authenticatedWithTenant)
           Samples.kiosk "access-1" Samples.acme);
    (reflexivity || discriminate).
Defined.

(** C7 as stated fails: the flag is set, the device record, an access token
    and a cached tenant are all there, but the token is the empty string;
    the pass takes the unauthenticated branch and never calls
    [api.setTenantId]. *)
Lemma persisted_tenant_counterexample :
  let st := Samples.emptyAccessToken in
  isDeviceAuthenticated st = true
  /\ deviceInfo st = Some Samples.kiosk
  /\ accessToken st = Some ""
  /\ tenant st = Some Samples.acme
  /\ emitted (initSession Samples.allGood None (Some "acme")) (Samples.world st)
     = [Console "[SessionProvider] initSession";
        Console "[SessionProvider] Not authenticated";
        SetInitialized true].
Proof. repeat split. Qed.

(** ** Proactive refresh *)

(** C5. A tick of the proactive refresh neither calls anything nor changes
    anything when the device is not authenticated, when there is no refresh
    token, or when the access token is not expiring within
    [REFRESH_THRESHOLD_MS], which is 300000 ms, five minutes; the first two
    hold whatever [isTokenExpiringSoon] answers. *)
Theorem proactiveRefresh_noop_unless_due (env : Env) (w : World) :
  isDeviceAuthenticated (store w) = false
  \/ refreshToken (store w) = None
  \/ isTokenExpiringSoon env (store w) REFRESH_THRESHOLD_MS = false ->
  proactiveRefresh env w = (Returns tt, w)
  /\ emitted (proactiveRefresh env) w = []
  /\ REFRESH_THRESHOLD_MS = 300000.
Proof.
  intros Hnot.
  assert (proactiveRefresh env w = (Returns tt, w)) as Hrun.
  { refresh_paths env w.
    destruct Hpath.
    - destruct w; unfold extend; simpl. now rewrite app_nil_r.
    - exfalso. destruct Hnot as [? | [? | ?]]; congruence.
    - exfalso. destruct Hnot as [? | [? | ?]]; congruence. }
  split; [ exact Hrun | split; [ | reflexivity ] ].
  unfold emitted. rewrite Hrun. simpl. apply drop_all.
Qed.

Lemma proactiveRefresh_noop_unless_due_witness :
  proactiveRefresh Samples.allGood (Samples.world Samples.anonymous)
    = (Returns tt, Samples.world Samples.anonymous)
  /\ emitted (proactiveRefresh Samples.allGood) (Samples.world Samples.anonymous) = []
  /\ REFRESH_THRESHOLD_MS = 300000.
Proof.
  apply (proactiveRefresh_noop_unless_due
           Samples.allGood (Samples.world Samples.anonymous)).
  left. reflexivity.
Defined.

(** C6. When a tick calls [refreshDeviceToken] and the call succeeds, the
    tick makes exactly one store call, [updateTokens] with the three values
    of the response, and the store is the old one with access token,
    refresh token and expiry replaced together.  When the call fails, the
    tick makes no store call and the store is the one it started from. *)
Theorem proactiveRefresh_updates_all_or_nothing
    (env : Env) (w : World) (token : string) (r : Outcome TokenResponse) :
  In (RefreshDeviceToken token r) (emitted (proactiveRefresh env) w) ->
  let evs := emitted (proactiveRefresh env) w in
  let w' := snd (proactiveRefresh env w) in
  match r with
  | Returns response =>
    List.filter is_store_action evs
      = [UpdateTokens (resp_accessToken response) (resp_refreshToken response)
                      (resp_expiresIn response)]
    /\ store w' = SessionStore.updateTokens (expiresAt env)
                    (resp_accessToken response) (resp_refreshToken response)
                    (resp_expiresIn response) (store w)
    /\ accessToken (store w') = Some (resp_accessToken response)
    /\ refreshToken (store w') = Some (resp_refreshToken response)
    /\ accessTokenExpiresAt (store w') = expiresAt env (resp_expiresIn response)
  | Throws _ =>
    List.filter is_store_action evs = []
    /\ store w' = store w
  end.
Proof.
  cbv zeta.
  refresh_paths env w.
  intros Hcall.
  destruct Hpath; in_events; injection Hcall as <- <-; repeat split.
Qed.

Lemma proactiveRefresh_updates_all_or_nothing_witness :
  let w := Samples.world Samples.authenticated in
  let w' := snd (proactiveRefresh Samples.allGood w) in
  List.filter is_store_action (emitted (proactiveRefresh Samples.allGood) w)
    = [UpdateTokens "access-2" "refresh-2" 3600]
  /\ store w' = SessionStore.updateTokens (expiresAt Samples.allGood)
                  "access-2" "refresh-2" 3600 (store w)
  /\ accessToken (store w') = Some "access-2"
  /\ refreshToken (store w') = Some "refresh-2"
  /\ accessTokenExpiresAt (store w') = Some 1700003600000.
Proof.
  apply (proactiveRefresh_updates_all_or_nothing
           Samples.allGood (Samples.world Samples.authenticated)
           "refresh-1" (Returns Samples.freshTokens)).
  vm_compute. auto.
Defined.

(** ** The mounted component *)

Import Component.

Lemma count_app p tr evs : count p (tr ++ evs) = (count p tr + count p evs)%nat.
Proof. unfold count. now rewrite List.filter_app, length_app. Qed.

Lemma spawn_proactiveRefresh env w :
  exists w',
    spawn (proactiveRefresh env) w = (Returns tt, w')
    /\ passes w' = passes w
    /\ initializations w' = initializations w
    /\ intervals w' = intervals w
    /\ nextIntervalId w' = nextIntervalId w.
Proof.
  unfold spawn. refresh_paths env w.
  eexists. split; [ reflexivity | ].
  unfold passes, initializations. simpl. rewrite !count_app.
  destruct Hpath; repeat split; cbn; lia.
Qed.

Lemma spawn_initSession env tenantSlug storedTenantSlug w :
  exists w',
    spawn (initSession env tenantSlug storedTenantSlug) w = (Returns tt, w')
    /\ passes w' = S (passes w)
    /\ initializations w' = S (initializations w)
    /\ intervals w' = intervals w
    /\ nextIntervalId w' = nextIntervalId w
    /\ isInitialized (store w') = true.
Proof.
  unfold spawn. init_paths env tenantSlug storedTenantSlug w.
  eexists. split; [ reflexivity | ].
  unfold passes, initializations. simpl. rewrite !count_app.
  destruct Hpath; repeat split; cbn; lia.
Qed.

Ltac simpl_effects :=
  cbv beta iota zeta;
  cbn [store trace intervals nextIntervalId
       isHydrated hasInitialized tenantSlugProp intervalCleanup mounted
       negb orb andb].

Ltac unfold_effects :=
  cbv beta iota zeta delta
    [commit tokenStoreEffect intervalEffect runCleanup initEffect
     setInterval clearInterval emit log_event with_store
     mbind mret M_bind M_ret];
  simpl_effects.

Ltac run_spawned :=
  match goal with
  | |- context [spawn (proactiveRefresh ?e) ?w0] =>
    let w1 := fresh "w" in
    destruct (spawn_proactiveRefresh e w0) as (w1 & -> & ? & ? & ? & ?)
  | |- context [spawn (initSession ?e ?a ?b) ?w0] =>
    let w1 := fresh "w" in
    destruct (spawn_initSession e a b w0) as (w1 & -> & ? & ? & ? & ? & ?)
  end; simpl_effects.

Ltac observe :=
  unfold passes, initializations in *;
  cbn [trace intervals nextIntervalId store owned] in *;
  rewrite ?count_app in *;
  cbn [count List.filter is_init_pass is_setInitialized_true length] in *.

Lemma filter_owned (id : nat) :
  List.filter (fun j => negb (Nat.eqb j id)) [id] = [].
Proof. simpl. now rewrite Nat.eqb_refl. Qed.

Lemma commit_spec env hydratedChanged c w :
  exists c' w',
    commit env hydratedChanged c w = (Returns c', w')
    /\ isHydrated c' = isHydrated c
    /\ mounted c' = mounted c
    /\ hasInitialized c' = hasInitialized c || isHydrated c
    /\ passes w' =
       (passes w + if isHydrated c && negb (hasInitialized c) then 1 else 0)%nat
    /\ initializations w' =
       (initializations w + if isHydrated c && negb (hasInitialized c) then 1 else 0)%nat
    /\ (intervals w = owned (intervalCleanup c) ->
        intervals w' = owned (intervalCleanup c'))
    /\ (isHydrated c = true -> hasInitialized c = false ->
        isInitialized (store w') = true).
Proof.
  destruct c as [hyd ini slug cleanup mnt], w as [st tr iv nx].
  unfold_effects.
  destruct hydratedChanged, hyd, ini, cleanup as [id|];
    simpl_effects;
    repeat run_spawned;
    eexists _, _; (split; [ reflexivity | ]);
    observe;
    repeat split; try lia; try congruence.
  all: intros Hiv; subst iv; cbn [owned intervalCleanup];
    repeat match goal with H : intervals _ = _ |- _ => rewrite H end;
    rewrite ?filter_owned; reflexivity.
Qed.

Lemma exec_commit env hydratedChanged c w dflt :
  exists c' w',
    exec dflt (commit env hydratedChanged c) w = (c', w')
    /\ isHydrated c' = isHydrated c
    /\ mounted c' = mounted c
    /\ hasInitialized c' = hasInitialized c || isHydrated c
    /\ passes w' =
       (passes w + if isHydrated c && negb (hasInitialized c) then 1 else 0)%nat
    /\ initializations w' =
       (initializations w + if isHydrated c && negb (hasInitialized c) then 1 else 0)%nat
    /\ (intervals w = owned (intervalCleanup c) ->
        intervals w' = owned (intervalCleanup c'))
    /\ (isHydrated c = true -> hasInitialized c = false ->
        isInitialized (store w') = true).
Proof.
  destruct (commit_spec env hydratedChanged c w) as (c' & w' & Hrun & H).
  exists c', w'. unfold exec. now rewrite Hrun.
Qed.

Lemma mount_eq env tenantSlug st :
  mount env tenantSlug st =
    ({| isHydrated := false;
        hasInitialized := false;
        tenantSlugProp := tenantSlug;
        intervalCleanup := None;
        mounted := true |},
     {| store := st; trace := []; intervals := []; nextIntervalId := 0 |}).
Proof. reflexivity. Qed.

Lemma mount_Inv env tenantSlug st : Inv (mount env tenantSlug st).
Proof. rewrite mount_eq. repeat split; simpl; congruence. Qed.

Lemma fire_each_spec env (live : list nat) w :
  let w' := fold_left (fun w0 _ => snd (spawn (proactiveRefresh env) w0)) live w in
  passes w' = passes w
  /\ initializations w' = initializations w
  /\ intervals w' = intervals w.
Proof.
  revert w. induction live as [|id live IH]; intros w; cbn [fold_left]; [ auto | ].
  destruct (spawn_proactiveRefresh env w) as (w' & Hrun & Hp & Hi & Hl & _).
  rewrite Hrun. cbn [snd].
  destruct (IH w') as (IHp & IHi & IHl).
  repeat split; congruence.
Qed.

Lemma fireIntervals_spec env w :
  passes (fireIntervals env w) = passes w
  /\ initializations (fireIntervals env w) = initializations w
  /\ intervals (fireIntervals env w) = intervals w.
Proof. apply fire_each_spec. Qed.

Lemma step_Inv env sys i : Inv sys -> Inv (step env sys i).
Proof.
  destruct sys as [c w]. unfold Inv. cbn [fst snd].
  intros (Hp & Hi & Hl & Hh & Hm).
  destruct i; cbn [step].
  - (* Hydrated *)
    destruct (mounted c) eqn:Hmounted; [ | cbn [fst snd]; repeat split; auto ].
    match goal with
    | |- context [exec ?d (commit env ?h ?c0) ?w0] =>
      destruct (exec_commit env h c0 w0 d)
        as (c' & w' & -> & Hhyd & Hmnt & Hini & Hpasses & Hinits & Hlive & _)
    end.
    cbn [fst snd isHydrated hasInitialized intervalCleanup mounted] in *.
    rewrite orb_true_r in Hini. rewrite Hini, Hpasses, Hinits, Hp, Hi, Hp.
    destruct (hasInitialized c); repeat split; auto; congruence.
  - (* StoreUpdate *)
    destruct (mounted c) eqn:Hmounted; [ | cbn [fst snd]; repeat split; auto ].
    match goal with
    | |- context [exec ?d (commit env ?h ?c0) ?w0] =>
      destruct (exec_commit env h c0 w0 d)
        as (c' & w' & -> & Hhyd & Hmnt & Hini & Hpasses & Hinits & Hlive & _)
    end.
    cbn [fst snd] in *.
    change (passes (with_store st w)) with (passes w) in Hpasses.
    change (initializations (with_store st w)) with (initializations w) in Hinits.
    rewrite Hini, Hpasses, Hinits, Hp, Hi, Hp, Hhyd.
    destruct (isHydrated c), (hasInitialized c);
      try (specialize (Hh eq_refl); discriminate);
      repeat split; auto; congruence.
  - (* PropsChange *)
    destruct (mounted c) eqn:Hmounted; [ | cbn [fst snd]; repeat split; auto ].
    match goal with
    | |- context [exec ?d (commit env ?h ?c0) ?w0] =>
      destruct (exec_commit env h c0 w0 d)
        as (c' & w' & -> & Hhyd & Hmnt & Hini & Hpasses & Hinits & Hlive & _)
    end.
    cbn [fst snd isHydrated hasInitialized intervalCleanup mounted] in *.
    rewrite Hini, Hpasses, Hinits, Hp, Hi, Hp, Hhyd.
    destruct (isHydrated c), (hasInitialized c);
      try (specialize (Hh eq_refl); discriminate);
      repeat split; auto; congruence.
  - (* Tick *)
    destruct (fireIntervals_spec env w) as (Fp & Fi & Fl).
    cbn [fst snd]. rewrite Fp, Fi, Fl. auto.
  - (* Unmount *)
    destruct (mounted c) eqn:Hmounted; [ | cbn [fst snd]; repeat split; auto ].
    cbn [fst snd isHydrated hasInitialized intervalCleanup mounted].
    destruct (intervalCleanup c) as [id|]; destruct w as [st tr live nx];
      cbn in Hl; subst live; unfold passes, initializations in *;
      cbn [runCleanup clearInterval mret M_ret snd trace intervals owned] in *;
      rewrite ?count_app, ?filter_owned; cbn; rewrite ?Nat.add_0_r; auto.
Qed.

Lemma run_Inv env inputs sys : Inv sys -> Inv (run env sys inputs).
Proof.
  revert sys. induction inputs as [|i inputs IH]; intros sys H; simpl; [ exact H | ].
  apply IH, step_Inv, H.
Qed.

Lemma run_app env sys (before after : list Input) :
  run env sys (before ++ after) = run env (run env sys before) after.
Proof. apply fold_left_app. Qed.

Lemma step_keeps_latch env sys i :
  hasInitialized (fst sys) = true -> hasInitialized (fst (step env sys i)) = true.
Proof.
  destruct sys as [c w]. cbn [fst]. intros Hini.
  destruct i; cbn [step]; try destruct (mounted c); cbn [fst hasInitialized]; auto;
    match goal with
    | |- context [exec ?d (commit env ?h ?c0) ?w0] =>
      destruct (exec_commit env h c0 w0 d) as (c' & w' & -> & _ & _ & Hc & _)
    end;
    cbn [fst hasInitialized] in *; rewrite Hc, Hini; reflexivity.
Qed.

Lemma run_keeps_latch env inputs sys :
  hasInitialized (fst sys) = true -> hasInitialized (fst (run env sys inputs)) = true.
Proof.
  revert sys. induction inputs as [|i inputs IH]; intros sys H; simpl; [ exact H | ].
  apply IH, step_keeps_latch, H.
Qed.

Lemma step_stays_mounted env sys i :
  mounted (fst sys) = true -> i <> Unmount -> mounted (fst (step env sys i)) = true.
Proof.
  destruct sys as [c w]. cbn [fst]. intros Hm Hi.
  destruct i; cbn [step]; try rewrite Hm; cbn [fst]; auto; try congruence;
    match goal with
    | |- context [exec ?d (commit env ?h ?c0) ?w0] =>
      destruct (exec_commit env h c0 w0 d) as (c' & w' & -> & _ & Hc & _)
    end;
    cbn [fst mounted] in *; congruence.
Qed.

Lemma run_stays_mounted env inputs sys :
  mounted (fst sys) = true -> ~ In Unmount inputs ->
  mounted (fst (run env sys inputs)) = true.
Proof.
  revert sys. induction inputs as [|i inputs IH]; intros sys Hm Hno; simpl; [ exact Hm | ].
  apply IH.
  - apply step_stays_mounted; [ exact Hm | ]. intros ->. apply Hno. now left.
  - intros Hin. apply Hno. now right.
Qed.

Lemma hydrated_sets_latch env sys :
  mounted (fst sys) = true -> hasInitialized (fst (step env sys Hydrated)) = true.
Proof.
  destruct sys as [c w]. cbn [fst step]. intros ->.
  match goal with
  | |- context [exec ?d (commit env ?h ?c0) ?w0] =>
    destruct (exec_commit env h c0 w0 d) as (c' & w' & -> & _ & _ & Hc & _)
  end.
  cbn [fst isHydrated] in *. rewrite Hc. apply orb_true_r.
Qed.

Lemma unmount_clears env sys :
  Inv sys ->
  mounted (fst (step env sys Unmount)) = false
  /\ intervals (snd (step env sys Unmount)) = [].
Proof.
  intros H. pose proof (step_Inv env sys Unmount H) as (_ & _ & Hl & _ & Hm).
  assert (mounted (fst (step env sys Unmount)) = false) as Hu.
  { destruct sys as [c w]. cbn [step]. destruct (mounted c) eqn:E; cbn; auto. }
  split; [ exact Hu | ].
  rewrite Hl, (Hm Hu). reflexivity.
Qed.

Lemma unmounted_step env sys i :
  mounted (fst sys) = false -> intervals (snd sys) = [] ->
  mounted (fst (step env sys i)) = false
  /\ intervals (snd (step env sys i)) = []
  /\ trace (snd (step env sys i)) = trace (snd sys).
Proof.
  destruct sys as [c w]. cbn [fst snd]. intros Hm Hl.
  destruct i; cbn [step]; rewrite ?Hm; cbn [fst snd]; auto.
  unfold fireIntervals. rewrite Hl. cbn [fold_left]. auto.
Qed.

Lemma unmounted_run env inputs sys :
  mounted (fst sys) = false -> intervals (snd sys) = [] ->
  intervals (snd (run env sys inputs)) = []
  /\ trace (snd (run env sys inputs)) = trace (snd sys).
Proof.
  revert sys. induction inputs as [|i inputs IH]; intros sys Hm Hl; simpl; [ auto | ].
  destruct (unmounted_step env sys i Hm Hl) as (Hm' & Hl' & Ht).
  destruct (IH _ Hm' Hl') as (IHl & IHt).
  split; congruence.
Qed.

Lemma step_before_hydration env sys i :
  isHydrated (fst sys) = false -> hasInitialized (fst sys) = false ->
  i <> Hydrated ->
  isHydrated (fst (step env sys i)) = false
  /\ hasInitialized (fst (step env sys i)) = false.
Proof.
  destruct sys as [c w]. cbn [fst]. intros Hh Hi Hne.
  destruct i; cbn [step]; try congruence;
    try destruct (mounted c); cbn [fst isHydrated hasInitialized]; auto;
    match goal with
    | |- context [exec ?d (commit env ?h ?c0) ?w0] =>
      destruct (exec_commit env h c0 w0 d) as (c' & w' & -> & Hc1 & _ & Hc2 & _)
    end;
    cbn [fst isHydrated hasInitialized] in *;
    rewrite Hc1, Hc2, Hh, Hi; auto.
Qed.

Lemma run_before_hydration env inputs sys :
  isHydrated (fst sys) = false -> hasInitialized (fst sys) = false ->
  ~ In Hydrated inputs ->
  isHydrated (fst (run env sys inputs)) = false
  /\ hasInitialized (fst (run env sys inputs)) = false.
Proof.
  revert sys. induction inputs as [|i inputs IH]; intros sys Hh Hi Hno; simpl; [ auto | ].
  destruct (step_before_hydration env sys i Hh Hi) as [Hh' Hi'].
  { intros ->. apply Hno. now left. }
  apply IH; auto. intros Hin. apply Hno. now right.
Qed.

Lemma hydration_initializes env sys :
  mounted (fst sys) = true ->
  isHydrated (fst sys) = false -> hasInitialized (fst sys) = false ->
  isInitialized (store (snd (step env sys Hydrated))) = true.
Proof.
  destruct sys as [c w]. cbn [fst step]. intros -> Hh Hi.
  match goal with
  | |- context [exec ?d (commit env ?h ?c0) ?w0] =>
    destruct (exec_commit env h c0 w0 d) as (c' & w' & -> & _ & _ & _ & _ & _ & _ & Hc)
  end.
  cbn [snd]. apply Hc; [ reflexivity | exact Hi ].
Qed.

(** C3. Take any mount and any inputs to it: renders caused by store
    writes or new props, the render that [setIsHydrated(true)] schedules,
    ticks, an unmount, in any number and order.  The trace shows at most one
    initialization pass and as many calls of [setInitialized(true)] as
    passes.  When the hydration render arrives while the component is still
    mounted, whatever came before it and whatever follows, there is exactly
    one pass and exactly one call of [setInitialized(true)]; and when that
    render is the first of its kind, the store is marked initialized as it
    commits. *)
Theorem initialization_runs_once
    (env : Env) (tenantSlug : option string) (st : SessionState) :
  (forall inputs,
      let final := run env (mount env tenantSlug st) inputs in
      (passes (snd final) <= 1)%nat
      /\ initializations (snd final) = passes (snd final))
  /\ (forall before after,
         ~ In Unmount before ->
         let final := run env (mount env tenantSlug st) (before ++ Hydrated :: after) in
         passes (snd final) = 1%nat
         /\ initializations (snd final) = 1%nat)
  /\ (forall before,
         ~ In Unmount before -> ~ In Hydrated before ->
         let hydrated := run env (mount env tenantSlug st) (before ++ [Hydrated]) in
         isInitialized (store (snd hydrated)) = true).
Proof.
  split; [ | split ].
  - intros inputs final.
    destruct (run_Inv env inputs _ (mount_Inv env tenantSlug st)) as (Hp & Hi & _).
    fold final in Hp, Hi. split; [ | exact Hi ].
    rewrite Hp. destruct (hasInitialized (fst final)); lia.
  - intros before after Hno final.
    destruct (run_Inv env (before ++ Hydrated :: after) _ (mount_Inv env tenantSlug st))
      as (Hp & Hi & _).
    fold final in Hp, Hi.
    assert (hasInitialized (fst final) = true) as Hlatch.
    { unfold final. rewrite run_app. cbn [run fold_left].
      apply run_keeps_latch, hydrated_sets_latch, run_stays_mounted; [ | exact Hno ].
      reflexivity. }
    rewrite Hlatch in Hp. split; congruence.
  - intros before Hno Hnh hydrated.
    unfold hydrated. rewrite run_app. cbn [run fold_left].
    destruct (run_before_hydration env before (mount env tenantSlug st))
      as [Hh Hi]; try reflexivity; try exact Hnh.
    apply hydration_initializes; try assumption.
    apply run_stays_mounted; [ reflexivity | exact Hno ].
Qed.

Lemma initialization_runs_once_witness :
  let final :=
    run Samples.allGood (mount Samples.allGood None Samples.authenticated)
        ([StoreUpdate Samples.authenticated; StoreUpdate Samples.authenticatedWithTenant;
          StoreUpdate Samples.authenticated]
         ++ Hydrated
         :: [StoreUpdate Samples.authenticated; Tick; PropsChange (Some "acme");
             Hydrated; StoreUpdate Samples.anonymous]) in
  passes (snd final) = 1%nat /\ initializations (snd final) = 1%nat.
Proof.
  apply (initialization_runs_once Samples.allGood None Samples.authenticated).
  simpl. intros [H | [H | [H | []]]]; discriminate H.
Defined.

(** C8. Once the component has unmounted, the host holds no interval of
    it, and nothing that happens afterwards, ticks included, adds a call of
    [refreshDeviceToken] to the trace. *)
Theorem no_refresh_after_unmount
    (env : Env) (tenantSlug : option string) (st : SessionState)
    (before after : list Input) :
  let unmounted := run env (mount env tenantSlug st) (before ++ [Unmount]) in
  let later := run env unmounted after in
  intervals (snd unmounted) = []
  /\ intervals (snd later) = []
  /\ refreshCalls (snd later) = refreshCalls (snd unmounted).
Proof.
  intros unmounted later.
  assert (mounted (fst unmounted) = false /\ intervals (snd unmounted) = [])
    as [Hm Hl].
  { unfold unmounted. rewrite run_app. cbn [run fold_left].
    apply unmount_clears, run_Inv, mount_Inv. }
  destruct (unmounted_run env after unmounted Hm Hl) as (Hl' & Ht).
  fold later in Hl', Ht.
  unfold refreshCalls. rewrite Ht. auto.
Qed.

(** ** The modifier pickers *)

(** C10. In [ModifierChips] and in [ModifierCards] a click on the button of
    an unavailable modifier never reaches [onToggle], and, in a group whose
    [maxSelections] exceeds 1, neither does a click on an unselected
    modifier once [maxSelections] of the group's modifiers are selected.
    In [ModifierSegmented] a click on any available modifier calls
    [onToggle] with it, however many are selected. *)
Theorem pickers_onToggle_guard
    (group : Modifiers.ModifierGroup) (selected : gset string)
    (i : nat) (modifier : Modifiers.Modifier) :
  Modifiers.modifiers group !! i = Some modifier ->
  (exists chip card segment,
      Modifiers.ModifierChips group selected !! i = Some chip
      /\ Modifiers.ModifierCards group selected !! i = Some card
      /\ Modifiers.ModifierSegmented group selected !! i = Some segment
      /\ (Modifiers.isAvailable modifier = false ->
          Modifiers.onClick chip = [] /\ Modifiers.onClick card = [])
      /\ (1 < Modifiers.maxSelections group ->
          Modifiers.id modifier ∉ selected ->
          Modifiers.maxSelections group
            <= Z.of_nat (Modifiers.selectedCount group selected) ->
          Modifiers.onClick chip = [] /\ Modifiers.onClick card = [])
      /\ (Modifiers.isAvailable modifier = true ->
          Modifiers.onClick segment = [modifier])).
Proof.
  intros Hm.
  exists (Modifiers.chipButton group selected modifier),
         (Modifiers.cardButton group selected modifier),
         (Modifiers.segmentedButton selected modifier).
  unfold Modifiers.ModifierChips, Modifiers.ModifierCards, Modifiers.ModifierSegmented.
  rewrite !list_lookup_fmap, Hm. simpl.
  split; [ reflexivity | ].
  split; [ reflexivity | ].
  split; [ reflexivity | ].
  split; [ | split ].
  - intros ->. split; reflexivity.
  - intros Hmax Hsel Hfull.
    rewrite bool_decide_eq_false_2 by assumption.
    unfold Modifiers.isRadio, Modifiers.canSelectMore.
    replace (Modifiers.maxSelections group =? 1) with false
      by (symmetry; apply Z.eqb_neq; lia).
    replace (Z.of_nat (Modifiers.selectedCount group selected)
               <? Modifiers.maxSelections group) with false
      by (symmetry; apply Z.ltb_ge; lia).
    simpl. rewrite orb_true_r. split; reflexivity.
  - intros ->. reflexivity.
Qed.

Lemma pickers_onToggle_guard_witness :
  exists chip card segment,
    Modifiers.ModifierChips Samples.toppings Samples.picked !! 2%nat = Some chip
    /\ Modifiers.ModifierCards Samples.toppings Samples.picked !! 2%nat = Some card
    /\ Modifiers.ModifierSegmented Samples.toppings Samples.picked !! 2%nat = Some segment
    /\ Modifiers.onClick chip = []
    /\ Modifiers.onClick card = []
    /\ Modifiers.onClick segment = [Samples.capers].
Proof.
  destruct (pickers_onToggle_guard Samples.toppings Samples.picked 2 Samples.capers)
    as (chip & card & segment & Hchip & Hcard & Hsegment & _ & Hfull & Havailable).
  - reflexivity.
  - exists chip, card, segment.
    destruct Hfull as [Hc Hd].
    + simpl. lia.
    + vm_compute. intros H. discriminate H.
    + vm_compute. discriminate.
    + repeat split; auto.
Defined.

(** ** Runs on the sample inputs *)

Example hydration_then_two_ticks :
  refreshCalls
    (snd (run Samples.allGood (mount Samples.allGood None Samples.authenticated)
              [Hydrated; Tick; Tick]))
  = 3%nat.
Proof. reflexivity. Qed.

Example unauthorized_fetch_clears_device :
  deviceSession
    (store (snd (initSession (Samples.failing Samples.unauthorized) None None
                             (Samples.world Samples.authenticated))))
  = (None, false, None, None).
Proof. reflexivity. Qed.

Example network_error_keeps_device :
  deviceSession
    (store (snd (initSession (Samples.failing Samples.networkError) None None
                             (Samples.world Samples.authenticated))))
  = deviceSession Samples.authenticated.
Proof. reflexivity. Qed.

Example anonymous_makes_no_remote_call :
  emitted (initSession Samples.allGood None None) (Samples.world Samples.anonymous)
  = [Console "[SessionProvider] initSession";
     Console "[SessionProvider] Not authenticated";
     SetInitialized true].
Proof. reflexivity. Qed.

(** * Further facts *)

Import Output.

(** ** More on initialization *)

Lemma authenticatedDevice_None st :
  isDeviceAuthenticated st = false \/ deviceInfo st = None
  \/ absent_or_empty (accessToken st) ->
  authenticatedDevice st = None.
Proof.
  unfold authenticatedDevice, absent_or_empty.
  intros [-> | [-> | [-> | ->]]]; destruct (deviceInfo st); simpl;
    rewrite ?andb_false_r; reflexivity.
Qed.

(** X1. A pass that finds the device flag off, or no device record, or no
    access token or an empty one, calls neither [api.setTenantId] nor
    [getCurrentTenant]: all it does is print two lines and call
    [setInitialized(true)], and the store changes in that flag only. *)
Theorem unauthenticated_init_stays_local
    (env : Env) (tenantSlug storedTenantSlug : option string) (w : World) :
  isDeviceAuthenticated (store w) = false \/ deviceInfo (store w) = None
  \/ absent_or_empty (accessToken (store w)) ->
  emitted (initSession env tenantSlug storedTenantSlug) w
    = [Console "[SessionProvider] initSession";
       Console "[SessionProvider] Not authenticated";
       SetInitialized true]
  /\ store (snd (initSession env tenantSlug storedTenantSlug w))
     = SessionStore.setInitialized true (store w).
Proof.
  intros Hno%authenticatedDevice_None.
  init_paths env tenantSlug storedTenantSlug w.
  destruct Hpath; try congruence. split; reflexivity.
Qed.

Lemma unauthenticated_init_stays_local_witness :
  emitted (initSession Samples.allGood (Some "acme") None) (Samples.world Samples.anonymous)
    = [Console "[SessionProvider] initSession";
       Console "[SessionProvider] Not authenticated";
       SetInitialized true]
  /\ store (snd (initSession Samples.allGood (Some "acme") None
                             (Samples.world Samples.anonymous)))
     = SessionStore.setInitialized true Samples.anonymous.
Proof.
  apply (unauthenticated_init_stays_local Samples.allGood (Some "acme") None
           (Samples.world Samples.anonymous)).
  left. reflexivity.
Defined.

(** X2. A pass calls [api.setTenantId] at most once and [getCurrentTenant]
    at most once, and a fetch it makes comes after a call of
    [api.setTenantId] with the device's tenant id that returned, from a
    store that holds no tenant. *)
Theorem init_registers_tenant_before_fetch
    (env : Env) (tenantSlug storedTenantSlug : option string) (w : World) :
  let evs := emitted (initSession env tenantSlug storedTenantSlug) w in
  (count is_setTenantId evs <= 1)%nat
  /\ (count is_tenant_fetch evs <= 1)%nat
  /\ forall r, In (GetCurrentTenant r) evs ->
       exists device pre post,
         authenticatedDevice (store w) = Some device
         /\ tenant (store w) = None
         /\ evs = pre ++ GetCurrentTenant r :: post
         /\ In (ApiSetTenantId (tenantId device) (Returns tt)) pre.
Proof.
  cbv zeta.
  init_paths env tenantSlug storedTenantSlug w.
  destruct Hpath; (split; [ cbn; lia | split; [ cbn; lia | ] ]);
    intros r Hin; in_events; injection Hin as <-;
    exists device;
    match goal with
    | |- context [?a :: ?b :: ?c :: ?d :: GetCurrentTenant ?r :: ?post] =>
      exists [a; b; c; d], post
    end; simpl; auto 10.
Qed.

Lemma init_registers_tenant_before_fetch_witness :
  exists device pre post,
    authenticatedDevice Samples.authenticated = Some device
    /\ tenant Samples.authenticated = None
    /\ emitted (initSession Samples.allGood None None) (Samples.world Samples.authenticated)
       = pre ++ GetCurrentTenant (Returns Samples.acme) :: post
    /\ In (ApiSetTenantId (tenantId device) (Returns tt)) pre.
Proof.
  apply (init_registers_tenant_before_fetch Samples.allGood None None
           (Samples.world Samples.authenticated)).
  vm_compute. auto 10.
Defined.

(** X3. When [api.setTenantId] throws, the pass still returns, fetches no
    tenant, and leaves the store as it was except for the initialized flag:
    the device session and the cached tenant are kept. *)
Theorem setTenantId_failure_is_contained
    (env : Env) (tenantSlug storedTenantSlug : option string) (w : World)
    (tenantId : string) (e : JsValue) :
  In (ApiSetTenantId tenantId (Throws e))
     (emitted (initSession env tenantSlug storedTenantSlug) w) ->
  fst (initSession env tenantSlug storedTenantSlug w) = Returns tt
  /\ count is_tenant_fetch (emitted (initSession env tenantSlug storedTenantSlug) w) = 0%nat
  /\ store (snd (initSession env tenantSlug storedTenantSlug w))
     = SessionStore.setInitialized true (store w).
Proof.
  init_paths env tenantSlug storedTenantSlug w.
  intros Hin. destruct Hpath; in_events. repeat split.
Qed.

Lemma setTenantId_failure_is_contained_witness :
  let env :=
    {| isTokenExpiringSoon := fun _ _ => false;
       expiresAt := fun _ => None;
       setTenantId_outcome := fun _ _ => Throws (JsString "boom");
       getCurrentTenant_outcome := fun _ => Returns Samples.acme;
       refreshDeviceToken_outcome := fun _ _ => Returns Samples.freshTokens |} in
  let run := initSession env None None in
  fst (run (Samples.world Samples.authenticated)) = Returns tt
  /\ count is_tenant_fetch (emitted run (Samples.world Samples.authenticated)) = 0%nat
  /\ store (snd (run (Samples.world Samples.authenticated)))
     = SessionStore.setInitialized true Samples.authenticated.
Proof.
  apply (setTenantId_failure_is_contained _ None None
           (Samples.world Samples.authenticated) "tenant-7" (JsString "boom")).
  vm_compute. auto.
Defined.


(** ** More on the proactive refresh *)

(** X5. A tick never throws, calls [refreshDeviceToken] at most once, and
    writes the store through [updateTokens] only: it never calls
    [clearDeviceSession], [setTenant] or [setInitialized], so the device
    record, the device flag, the tenant, its slug and the initialized flag
    come out as they went in. *)
Theorem proactiveRefresh_only_touches_tokens (env : Env) (w : World) :
  let evs := emitted (proactiveRefresh env) w in
  let w' := snd (proactiveRefresh env w) in
  fst (proactiveRefresh env w) = Returns tt
  /\ (count is_refresh_call evs <= 1)%nat
  /\ List.filter is_store_action evs = List.filter is_updateTokens evs
  /\ deviceInfo (store w') = deviceInfo (store w)
  /\ isDeviceAuthenticated (store w') = isDeviceAuthenticated (store w)
  /\ tenant (store w') = tenant (store w)
  /\ SessionStore.tenantSlug (store w') = SessionStore.tenantSlug (store w)
  /\ isInitialized (store w') = isInitialized (store w).
Proof.
  cbv zeta.
  refresh_paths env w.
  destruct Hpath; repeat split; cbn; lia.
Qed.

(** X6. Ticks read the store afresh: after a tick whose refresh succeeded,
    the next tick that calls [refreshDeviceToken] sends the refresh token of
    that response. *)
Theorem next_tick_sends_rotated_token
    (env : Env) (w : World) (token token' : string)
    (response : TokenResponse) (r' : Outcome TokenResponse) :
  In (RefreshDeviceToken token (Returns response)) (emitted (proactiveRefresh env) w) ->
  In (RefreshDeviceToken token' r')
     (emitted (proactiveRefresh env) (snd (proactiveRefresh env w))) ->
  token' = resp_refreshToken response.
Proof.
  refresh_paths env w.
  intros Hfirst.
  destruct Hpath; in_events. injection Hfirst as <- <-.
  match goal with
  | |- context [emitted (proactiveRefresh env) ?w1] =>
    destruct (proactiveRefresh_paths env w1) as (evs1 & st1 & Hpath1 & Hrun1);
    rewrite (emitted_extend _ _ _ _ _ Hrun1)
  end.
  cbn [store extend] in Hpath1.
  intros Hnext. destruct Hpath1; in_events.
  - injection Hnext as <- _.
    match goal with H : refreshToken _ = Some _ |- _ => cbn in H; congruence end.
  - injection Hnext as <- _.
    match goal with H : refreshToken _ = Some _ |- _ => cbn in H; congruence end.
Qed.

Lemma next_tick_sends_rotated_token_witness :
  "refresh-2" = resp_refreshToken Samples.freshTokens.
Proof.
  apply (next_tick_sends_rotated_token Samples.allGood
           (Samples.world Samples.authenticated) "refresh-1" "refresh-2"
           Samples.freshTokens (Returns Samples.freshTokens));
    vm_compute; auto.
Defined.

(** ** More on the slug *)

(** X7. The slug that is stored is one of the three candidates, it is empty
    only when all three are absent or empty, and it is stable: a pass that
    finds the chosen slug in the store chooses it again. *)
Theorem slugToUse_is_first_non_empty
    (tenantSlug storedTenantSlug : option string) (t : Tenant) :
  let chosen := slugToUse tenantSlug storedTenantSlug t in
  (tenantSlug = Some chosen \/ storedTenantSlug = Some chosen \/ slug t = chosen)
  /\ (chosen = "" ->
      absent_or_empty tenantSlug /\ absent_or_empty storedTenantSlug /\ slug t = "")
  /\ slugToUse tenantSlug (Some chosen) t = chosen.
Proof.
  unfold slugToUse, or_else, or_string, truthy_string, absent_or_empty.
  destruct tenantSlug as [a|], storedTenantSlug as [b|]; cbn;
    repeat match goal with
           | |- context [String.eqb ?s ""] =>
             destruct (String.eqb_spec s ""); subst; cbn
           end;
    repeat split; auto; try congruence;
    try (intros; subst; auto; congruence).
  all: idtac.
Qed.

(** ** More on the mounted component *)

Lemma spawn_proactiveRefresh_calls env w :
  exists w',
    spawn (proactiveRefresh env) w = (Returns tt, w')
    /\ registrations w' = registrations w
    /\ (refreshCalls w <= refreshCalls w' <= refreshCalls w + 1)%nat
    /\ intervals w' = intervals w
    /\ nextIntervalId w' = nextIntervalId w.
Proof.
  unfold spawn. refresh_paths env w.
  eexists. split; [ reflexivity | ].
  unfold registrations, refreshCalls. simpl. rewrite !count_app.
  destruct Hpath; repeat split; cbn; lia.
Qed.

Lemma spawn_initSession_calls env tenantSlug storedTenantSlug w :
  exists w',
    spawn (initSession env tenantSlug storedTenantSlug) w = (Returns tt, w')
    /\ registrations w' = registrations w
    /\ refreshCalls w' = refreshCalls w
    /\ intervals w' = intervals w
    /\ nextIntervalId w' = nextIntervalId w.
Proof.
  unfold spawn. init_paths env tenantSlug storedTenantSlug w.
  eexists. split; [ reflexivity | ].
  unfold registrations, refreshCalls. simpl. rewrite !count_app.
  destruct Hpath; repeat split; cbn; lia.
Qed.

Ltac run_spawned_calls :=
  match goal with
  | |- context [spawn (proactiveRefresh ?e) ?w0] =>
    let w1 := fresh "w" in
    destruct (spawn_proactiveRefresh_calls e w0) as (w1 & -> & ? & ? & ? & ?)
  | |- context [spawn (initSession ?e ?a ?b) ?w0] =>
    let w1 := fresh "w" in
    destruct (spawn_initSession_calls e a b w0) as (w1 & -> & ? & ? & ? & ?)
  end; simpl_effects.

Ltac observe_calls :=
  unfold registrations, refreshCalls in *;
  cbn [trace intervals nextIntervalId store] in *;
  rewrite ?count_app in *;
  cbn [count List.filter is_setTokenStore is_refresh_call length] in *.

Lemma commit_calls env hydratedChanged c w :
  exists c' w',
    commit env hydratedChanged c w = (Returns c', w')
    /\ registrations w' =
       (registrations w + if hydratedChanged && isHydrated c then 1 else 0)%nat
    /\ (refreshCalls w' <=
        refreshCalls w + if hydratedChanged && isHydrated c then 1 else 0)%nat
    /\ (isHydrated c = false -> intervalCleanup c = None ->
        trace w' = trace w /\ intervalCleanup c' = None)
    /\ (isHydrated c = true -> hydratedChanged = true ->
        is_Some (intervalCleanup c'))
    /\ (hydratedChanged = false -> intervalCleanup c' = intervalCleanup c).
Proof.
  destruct c as [hyd ini slug cleanup mnt], w as [st tr iv nx].
  unfold_effects.
  destruct hydratedChanged, hyd, ini, cleanup as [id|];
    simpl_effects;
    repeat run_spawned_calls;
    eexists _, _; (split; [ reflexivity | ]);
    observe_calls;
    (split; [ lia | ]); (split; [ lia | ]);
    (split; [ intros; try discriminate; auto | ]);
    (split; [ intros; try discriminate; eauto | ]);
    intros; try discriminate; auto.
Qed.

Lemma exec_commit_calls env hydratedChanged c w dflt :
  exists c' w',
    exec dflt (commit env hydratedChanged c) w = (c', w')
    /\ registrations w' =
       (registrations w + if hydratedChanged && isHydrated c then 1 else 0)%nat
    /\ (refreshCalls w' <=
        refreshCalls w + if hydratedChanged && isHydrated c then 1 else 0)%nat
    /\ (isHydrated c = false -> intervalCleanup c = None ->
        trace w' = trace w /\ intervalCleanup c' = None)
    /\ (isHydrated c = true -> hydratedChanged = true ->
        is_Some (intervalCleanup c'))
    /\ (hydratedChanged = false -> intervalCleanup c' = intervalCleanup c)
    /\ isHydrated c' = isHydrated c
    /\ mounted c' = mounted c.
Proof.
  destruct (commit_calls env hydratedChanged c w) as (c' & w' & Hrun & H1 & H2 & H3 & H4 & H5).
  destruct (exec_commit env hydratedChanged c w dflt)
    as (c2 & w2 & Hexec & Hh & Hm & _).
  unfold exec in *. rewrite Hrun in *. injection Hexec as <- <-.
  exists c', w'. auto 10.
Qed.

Lemma fire_each_calls env (live : list nat) w :
  let w' := fold_left (fun w0 _ => snd (spawn (proactiveRefresh env) w0)) live w in
  registrations w' = registrations w
  /\ (refreshCalls w' <= refreshCalls w + length live)%nat.
Proof.
  revert w. induction live as [|id live IH]; intros w; cbn [fold_left length]; [ lia | ].
  destruct (spawn_proactiveRefresh_calls env w) as (w' & Hrun & Hr & Hc & _).
  rewrite Hrun. cbn [snd].
  destruct (IH w') as (IHr & IHc). split; [ congruence | lia ].
Qed.

Lemma step_Inv' env sys i : Inv sys -> Inv' sys -> Inv' (step env sys i).
Proof.
  destruct sys as [c w]. unfold Inv, Inv'. cbn [fst snd].
  intros (_ & _ & Hl & _ & _) (Hpre & Hsome & Hreg).
  destruct i; cbn [step].
  - (* Hydrated *)
    destruct (mounted c) eqn:Hmounted;
      [ | unfold registrations in *; cbn [fst snd with_store trace] in *;
          intuition congruence ].
    match goal with
    | |- context [exec ?d (commit env ?h ?c0) ?w0] =>
      destruct (exec_commit_calls env h c0 w0 d)
        as (c' & w' & -> & Hr & _ & _ & Hnew & Hold & Hhyd & Hmnt)
    end.
    cbn [fst snd isHydrated intervalCleanup mounted] in *.
    rewrite Hhyd, Hr, Hreg, andb_true_r.
    split; [ discriminate | ]. split; [ | destruct (isHydrated c); reflexivity ].
    intros _ _. destruct (isHydrated c) eqn:Hh; cbn [negb] in *.
    + rewrite Hold by reflexivity. auto.
    + auto.
  - (* StoreUpdate *)
    destruct (mounted c) eqn:Hmounted;
      [ | unfold registrations in *; cbn [fst snd with_store trace] in *;
          intuition congruence ].
    match goal with
    | |- context [exec ?d (commit env ?h ?c0) ?w0] =>
      destruct (exec_commit_calls env h c0 w0 d)
        as (c' & w' & -> & Hr & _ & Hquiet & _ & Hold & Hhyd & Hmnt)
    end.
    cbn [fst snd] in *.
    change (registrations (with_store st w)) with (registrations w) in Hr.
    change (trace (with_store st w)) with (trace w) in Hquiet.
    rewrite Hhyd, Hr, Hreg, Hmnt, Hold, Nat.add_0_r by reflexivity.
    split; [ | split; [ auto | reflexivity ] ].
    intros Hh. destruct (Hpre Hh) as [Ht Hc]. destruct (Hquiet Hh Hc).
    split; congruence.
  - (* PropsChange *)
    destruct (mounted c) eqn:Hmounted;
      [ | unfold registrations in *; cbn [fst snd with_store trace] in *;
          intuition congruence ].
    match goal with
    | |- context [exec ?d (commit env ?h ?c0) ?w0] =>
      destruct (exec_commit_calls env h c0 w0 d)
        as (c' & w' & -> & Hr & _ & Hquiet & _ & Hold & Hhyd & Hmnt)
    end.
    cbn [fst snd isHydrated intervalCleanup mounted] in *.
    rewrite Hhyd, Hr, Hreg, Hmnt, Hold, Nat.add_0_r by reflexivity.
    split; [ | split; [ auto | reflexivity ] ].
    intros Hh. destruct (Hpre Hh) as [Ht Hc]. destruct (Hquiet Hh Hc).
    split; congruence.
  - (* Tick *)
    cbn [fst snd].
    destruct (fire_each_calls env (intervals w) w) as (Hr & _).
    fold (fireIntervals env w) in Hr. rewrite Hr.
    split; [ | split; [ auto | exact Hreg ] ].
    intros Hh. destruct (Hpre Hh) as [Ht Hc]. rewrite Hc in Hl. cbn in Hl.
    unfold fireIntervals. rewrite Hl. split; [ exact Ht | exact Hc ].
  - (* Unmount *)
    destruct (mounted c) eqn:Hmounted;
      [ | unfold registrations in *; cbn [fst snd with_store trace] in *;
          intuition congruence ].
    cbn [fst snd isHydrated intervalCleanup mounted].
    split; [ | split; [ discriminate | ] ].
    + intros Hh. destruct (Hpre Hh) as [Ht Hc]. rewrite Hc. split; [ exact Ht | reflexivity ].
    + destruct (intervalCleanup c); [ | exact Hreg ].
      unfold registrations in *. cbn [runCleanup clearInterval snd trace].
      rewrite count_app. cbn. lia.
Qed.

Lemma mount_Inv' env tenantSlug st : Inv' (mount env tenantSlug st).
Proof.
  rewrite mount_eq. unfold Inv'. cbn. repeat split; auto; discriminate.
Qed.

Lemma run_Invs env inputs sys :
  Inv sys -> Inv' sys -> Inv (run env sys inputs) /\ Inv' (run env sys inputs).
Proof.
  revert sys. induction inputs as [|i inputs IH]; intros sys H H'; simpl; [ auto | ].
  apply IH; [ apply step_Inv, H | apply step_Inv'; assumption ].
Qed.

Lemma reachable_Invs env tenantSlug st inputs :
  Inv (run env (mount env tenantSlug st) inputs)
  /\ Inv' (run env (mount env tenantSlug st) inputs).
Proof. apply run_Invs; [ apply mount_Inv | apply mount_Inv' ]. Qed.

Lemma step_stays_hydrated env sys i :
  isHydrated (fst sys) = true -> isHydrated (fst (step env sys i)) = true.
Proof.
  destruct sys as [c w]. cbn [fst]. intros Hh.
  destruct i; cbn [step]; try destruct (mounted c); cbn [fst isHydrated]; auto;
    match goal with
    | |- context [exec ?d (commit env ?h ?c0) ?w0] =>
      destruct (exec_commit env h c0 w0 d) as (c' & w' & -> & Hc & _)
    end;
    cbn [fst isHydrated] in *; congruence.
Qed.

Lemma run_stays_hydrated env inputs sys :
  isHydrated (fst sys) = true -> isHydrated (fst (run env sys inputs)) = true.
Proof.
  revert sys. induction inputs as [|i inputs IH]; intros sys H; simpl; [ exact H | ].
  apply IH, step_stays_hydrated, H.
Qed.

Lemma hydrated_step_hydrates env sys :
  mounted (fst sys) = true -> isHydrated (fst (step env sys Hydrated)) = true.
Proof.
  destruct sys as [c w]. cbn [fst step]. intros ->.
  match goal with
  | |- context [exec ?d (commit env ?h ?c0) ?w0] =>
    destruct (exec_commit env h c0 w0 d) as (c' & w' & -> & Hc & _)
  end.
  cbn [fst isHydrated] in *. exact Hc.
Qed.

Lemma hydrated_after env tenantSlug st before after :
  ~ In Unmount before ->
  isHydrated (fst (run env (mount env tenantSlug st) (before ++ Hydrated :: after))) = true.
Proof.
  intros Hno. rewrite run_app. cbn [run fold_left].
  apply run_stays_hydrated, hydrated_step_hydrates, run_stays_mounted;
    [ reflexivity | exact Hno ].
Qed.

Lemma not_hydrated_before env tenantSlug st before :
  ~ In Hydrated before ->
  isHydrated (fst (run env (mount env tenantSlug st) before)) = false.
Proof.
  intros Hno.
  now destruct (run_before_hydration env before (mount env tenantSlug st)
                  eq_refl eq_refl Hno).
Qed.

(** X8. A provider never holds more than one interval: none before the
    hydration render and none once unmounted, exactly one while it is
    hydrated and mounted. *)
Theorem one_live_interval
    (env : Env) (tenantSlug : option string) (st : SessionState)
    (inputs : list Input) :
  let final := run env (mount env tenantSlug st) inputs in
  (length (intervals (snd final)) <= 1)%nat
  /\ (isHydrated (fst final) = false \/ mounted (fst final) = false ->
      intervals (snd final) = [])
  /\ (isHydrated (fst final) = true -> mounted (fst final) = true ->
      length (intervals (snd final)) = 1%nat).
Proof.
  intros final.
  destruct (reachable_Invs env tenantSlug st inputs)
    as ((_ & _ & Hl & _ & Hu) & (Hpre & Hsome & _)).
  fold final in Hl, Hu, Hpre, Hsome. rewrite Hl.
  split; [ destruct (intervalCleanup (fst final)); cbn; lia | ].
  split.
  - intros [Hh | Hm].
    + destruct (Hpre Hh) as [_ ->]. reflexivity.
    + rewrite (Hu Hm). reflexivity.
  - intros Hh Hm. destruct (Hsome Hh Hm) as [id ->]. reflexivity.
Qed.

Lemma one_live_interval_witness :
  let final :=
    run Samples.allGood (mount Samples.allGood None Samples.authenticated)
        [StoreUpdate Samples.anonymous; Hydrated; Tick; Hydrated;
         PropsChange (Some "acme"); Tick] in
  length (intervals (snd final)) = 1%nat.
Proof.
  apply (one_live_interval Samples.allGood None Samples.authenticated); reflexivity.
Defined.

(** X9. The token store is handed to the API client at most once per
    mount: not before the hydration render, and exactly once when that
    render arrives while the provider is mounted, whatever follows. *)
Theorem token_store_registered_once
    (env : Env) (tenantSlug : option string) (st : SessionState) :
  (forall inputs,
      (registrations (snd (run env (mount env tenantSlug st) inputs)) <= 1)%nat)
  /\ (forall before,
         ~ In Hydrated before ->
         registrations (snd (run env (mount env tenantSlug st) before)) = 0%nat)
  /\ (forall before after,
         ~ In Unmount before ->
         registrations
           (snd (run env (mount env tenantSlug st) (before ++ Hydrated :: after)))
         = 1%nat).
Proof.
  split; [ | split ].
  - intros inputs.
    destruct (reachable_Invs env tenantSlug st inputs) as (_ & (_ & _ & ->)).
    destruct (isHydrated _); lia.
  - intros before Hno.
    destruct (reachable_Invs env tenantSlug st before) as (_ & (_ & _ & ->)).
    now rewrite not_hydrated_before.
  - intros before after Hno.
    destruct (reachable_Invs env tenantSlug st (before ++ Hydrated :: after))
      as (_ & (_ & _ & ->)).
    now rewrite hydrated_after.
Qed.

Lemma token_store_registered_once_witness :
  registrations
    (snd (run Samples.allGood (mount Samples.allGood None Samples.authenticated)
              ([StoreUpdate Samples.anonymous; Tick] ++ Hydrated :: [Hydrated; Tick])))
  = 1%nat.
Proof.
  apply (token_store_registered_once Samples.allGood None Samples.authenticated).
  simpl. intros [H | [H | []]]; discriminate H.
Defined.

Lemma step_refresh_budget env sys i :
  Inv sys ->
  (refreshCalls (snd (step env sys i))
     + (if isHydrated (fst (step env sys i)) then 0 else 1)
   <= refreshCalls (snd sys) + (if isHydrated (fst sys) then 0 else 1)
      + (if is_tick i then 1 else 0))%nat.
Proof.
  destruct sys as [c w]. unfold Inv. cbn [fst snd].
  intros (_ & _ & Hl & _ & _).
  destruct i; cbn [step is_tick].
  - destruct (mounted c); [ | cbn [fst snd]; lia ].
    match goal with
    | |- context [exec ?d (commit env ?h ?c0) ?w0] =>
      destruct (exec_commit_calls env h c0 w0 d)
        as (c' & w' & -> & _ & Hr & _ & _ & _ & Hhyd & _)
    end.
    cbn [fst snd isHydrated] in *. rewrite Hhyd.
    destruct (isHydrated c); cbn in Hr; lia.
  - destruct (mounted c); [ | cbn [fst snd];
          change (refreshCalls (with_store st w)) with (refreshCalls w); lia ].
    match goal with
    | |- context [exec ?d (commit env ?h ?c0) ?w0] =>
      destruct (exec_commit_calls env h c0 w0 d)
        as (c' & w' & -> & _ & Hr & _ & _ & _ & Hhyd & _)
    end.
    cbn [fst snd] in *. rewrite Hhyd.
    change (refreshCalls (with_store st w)) with (refreshCalls w) in Hr.
    cbn in Hr. lia.
  - destruct (mounted c); [ | cbn [fst snd]; lia ].
    match goal with
    | |- context [exec ?d (commit env ?h ?c0) ?w0] =>
      destruct (exec_commit_calls env h c0 w0 d)
        as (c' & w' & -> & _ & Hr & _ & _ & _ & Hhyd & _)
    end.
    cbn [fst snd isHydrated] in *. rewrite Hhyd. cbn in Hr. lia.
  - cbn [fst snd].
    destruct (fire_each_calls env (intervals w) w) as (_ & Hr).
    fold (fireIntervals env w) in Hr. rewrite Hl in Hr.
    destruct (intervalCleanup c); cbn in Hr; lia.
  - destruct (mounted c); cbn [fst snd isHydrated]; [ | lia ].
    destruct (intervalCleanup c); unfold refreshCalls;
      cbn [runCleanup clearInterval snd trace mret M_ret];
      rewrite ?count_app; cbn; lia.
Qed.

Lemma run_refresh_budget env inputs sys :
  Inv sys ->
  (refreshCalls (snd (run env sys inputs))
   <= refreshCalls (snd sys) + (if isHydrated (fst sys) then 0 else 1)
      + ticks inputs)%nat.
Proof.
  revert sys. induction inputs as [|i inputs IH]; intros sys H.
  - cbn. lia.
  - cbn [run fold_left]. fold (run env (step env sys i) inputs).
    pose proof (IH _ (step_Inv env sys i H)) as Hrest.
    pose proof (step_refresh_budget env sys i H) as Hstep.
    unfold ticks in *. cbn [List.filter].
    destruct (is_tick i); cbn [length]; lia.
Qed.

(** X10. A mount calls [refreshDeviceToken] at most once more than the
    number of ticks it has seen: once when the hydration render commits, and
    once per tick. *)
Theorem refresh_calls_bounded_by_ticks
    (env : Env) (tenantSlug : option string) (st : SessionState)
    (inputs : list Input) :
  (refreshCalls (snd (run env (mount env tenantSlug st) inputs))
   <= 1 + ticks inputs)%nat.
Proof.
  pose proof (run_refresh_budget env inputs _ (mount_Inv env tenantSlug st)) as H.
  rewrite mount_eq in H at 2 3. cbn in H. lia.
Qed.

(** X11. The provider renders nothing before the hydration render and its
    children from then on, whatever the store holds and however the
    initialization and the refreshes end. *)
Theorem children_render_after_hydration
    {Children : Type} (children : Children)
    (env : Env) (tenantSlug : option string) (st : SessionState) :
  (forall before,
      ~ In Hydrated before ->
      render children (fst (run env (mount env tenantSlug st) before)) = None)
  /\ (forall before after,
         ~ In Unmount before ->
         render children
           (fst (run env (mount env tenantSlug st) (before ++ Hydrated :: after)))
         = Some children).
Proof.
  unfold render. split.
  - intros before Hno. now rewrite not_hydrated_before.
  - intros before after Hno. now rewrite hydrated_after.
Qed.

Lemma children_render_after_hydration_witness :
  render "menu"
    (fst (run (Samples.failing Samples.unauthorized)
              (mount (Samples.failing Samples.unauthorized) None Samples.authenticated)
              ([StoreUpdate Samples.authenticated] ++ Hydrated :: [Tick])))
  = Some "menu".
Proof.
  apply (children_render_after_hydration "menu"
           (Samples.failing Samples.unauthorized) None Samples.authenticated).
  simpl. intros [H | []]. discriminate H.
Defined.

(** X12. A provider that unmounts before its hydration render has called
    nothing and never will: no initialization pass, no refresh, no
    registration, no interval, even if the hydration render or ticks arrive
    later. *)
Theorem unmount_before_hydration_is_silent
    (env : Env) (tenantSlug : option string) (st : SessionState)
    (before after : list Input) :
  ~ In Hydrated before ->
  let final := run env (mount env tenantSlug st) (before ++ Unmount :: after) in
  trace (snd final) = [] /\ intervals (snd final) = [].
Proof.
  intros Hno final. unfold final. rewrite run_app. cbn [run fold_left].
  fold (run env (step env (run env (mount env tenantSlug st) before) Unmount) after).
  destruct (reachable_Invs env tenantSlug st before) as (HI & (Hpre & _)).
  destruct (Hpre (not_hydrated_before env tenantSlug st before Hno)) as [Ht Hc].
  destruct (unmount_clears env _ HI) as [Hm Hl].
  destruct (unmounted_run env after _ Hm Hl) as [Hl' Ht'].
  split; [ | exact Hl' ].
  rewrite Ht'.
  destruct (run env (mount env tenantSlug st) before) as [c w].
  cbn [fst snd] in *. cbn [step].
  destruct (mounted c); cbn [snd]; [ | exact Ht ].
  rewrite Hc. exact Ht.
Qed.

Lemma unmount_before_hydration_is_silent_witness :
  let final :=
    run Samples.allGood (mount Samples.allGood None Samples.authenticated)
        ([StoreUpdate Samples.authenticatedWithTenant; Tick]
         ++ Unmount :: [Hydrated; Tick; StoreUpdate Samples.authenticated]) in
  trace (snd final) = [] /\ intervals (snd final) = [].
Proof.
  apply (unmount_before_hydration_is_silent
           Samples.allGood None Samples.authenticated).
  simpl. intros [H | [H | []]]; discriminate H.
Defined.

(** ** More on the modifier pickers *)

Lemma filter_length_mono {A} (p q : A -> bool) (l : list A) :
  (forall x, In x l -> p x = true -> q x = true) ->
  (length (List.filter p l) <= length (List.filter q l))%nat.
Proof.
  induction l as [|x l IH]; intros H; simpl; [ lia | ].
  assert (length (List.filter p l) <= length (List.filter q l))%nat as IH'.
  { apply IH. intros y Hy. apply H. now right. }
  destruct (p x) eqn:Hp.
  - rewrite (H x (or_introl eq_refl) Hp). simpl. lia.
  - destruct (q x); simpl; lia.
Qed.

Lemma selectedCount_counts_the_groups_own_aux
    (group : Modifiers.ModifierGroup) (selected more : gset string) :
  (Modifiers.selectedCount group selected <= length (Modifiers.modifiers group))%nat
  /\ Modifiers.selectedCount group ∅ = 0%nat
  /\ (Modifiers.selectedCount group selected
      <= Modifiers.selectedCount group (selected ∪ more))%nat.
Proof.
  unfold Modifiers.selectedCount.
  split; [ apply List.filter_length_le | ].
  split.
  { induction (Modifiers.modifiers group) as [|m l IH]; [ reflexivity | ].
    simpl. rewrite bool_decide_eq_false_2 by set_solver. exact IH. }
  apply filter_length_mono. intros m _ Hm.
  apply bool_decide_eq_true in Hm. apply bool_decide_eq_true. set_solver.
Qed.

(** X13. The selected count is the number of the group's own modifiers
    that are selected: it never exceeds the size of the group, it is zero
    for the empty selection, ids that belong to no modifier of the group do
    not change it, and it does not shrink when the selection grows. *)
Theorem selectedCount_counts_the_groups_own
    (group : Modifiers.ModifierGroup) (selected more : gset string) :
  (Modifiers.selectedCount group selected <= length (Modifiers.modifiers group))%nat
  /\ Modifiers.selectedCount group ∅ = 0%nat
  /\ ((forall m, In m (Modifiers.modifiers group) -> Modifiers.id m ∉ more) ->
      Modifiers.selectedCount group (selected ∪ more)
      = Modifiers.selectedCount group selected)
  /\ (Modifiers.selectedCount group selected
      <= Modifiers.selectedCount group (selected ∪ more))%nat.
Proof.
  destruct (selectedCount_counts_the_groups_own_aux group selected more)
    as (Hle & Hempty & Hmono).
  split; [ exact Hle | split; [ exact Hempty | split; [ | exact Hmono ] ] ].
  intros Hforeign. unfold Modifiers.selectedCount. f_equal.
  apply List.filter_ext_in.
  intros m Hm. apply bool_decide_ext. specialize (Hforeign m Hm).
  rewrite elem_of_union. tauto.
Qed.

Lemma selectedCount_counts_the_groups_own_witness :
  Modifiers.selectedCount Samples.toppings (Samples.picked ∪ {[ "m-ketchup" ]})
  = Modifiers.selectedCount Samples.toppings Samples.picked.
Proof.
  apply (selectedCount_counts_the_groups_own
           Samples.toppings Samples.picked {[ "m-ketchup" ]}).
  intros m [<- | [<- | [<- | [<- | []]]]];
    apply (bool_decide_eq_true_1 _); vm_compute; reflexivity.
Defined.

(** X14. The badge never turns red by selecting more: a selection that the
    badge accepts stays accepted when it grows, whatever [maxSelections]
    is.  A group that requires nothing is always accepted; a group that
    requires something is rejected for the empty selection, and for every
    selection when it has no modifiers. *)
Theorem badge_accepts_supersets
    (group : Modifiers.ModifierGroup) (selected more : gset string) :
  (Badge.badgeVariant group selected = Badge.secondary ->
   Badge.badgeVariant group (selected ∪ more) = Badge.secondary)
  /\ (Modifiers.minSelections group <= 0 ->
      Badge.badgeVariant group selected = Badge.secondary)
  /\ (0 < Modifiers.minSelections group ->
      Badge.badgeVariant group ∅ = Badge.destructive)
  /\ (0 < Modifiers.minSelections group -> Modifiers.modifiers group = [] ->
      Badge.badgeVariant group selected = Badge.destructive).
Proof.
  destruct (selectedCount_counts_the_groups_own_aux group selected more)
    as (Hle & Hempty & Hmono).
  unfold Badge.badgeVariant, Modifiers.isValid, Modifiers.isRequired.
  rewrite Hempty.
  split; [ | split; [ | split ] ].
  - destruct (0 <? Modifiers.minSelections group) eqn:Hreq; cbn [negb orb]; [ | auto ].
    destruct (Z.leb_spec (Modifiers.minSelections group)
                         (Z.of_nat (Modifiers.selectedCount group selected)));
      [ | discriminate ].
    intros _.
    destruct (Z.leb_spec (Modifiers.minSelections group)
                (Z.of_nat (Modifiers.selectedCount group (selected ∪ more))));
      [ reflexivity | lia ].
  - intros Hmin.
    replace (0 <? Modifiers.minSelections group) with false
      by (symmetry; apply Z.ltb_ge; lia).
    reflexivity.
  - intros Hmin.
    replace (0 <? Modifiers.minSelections group) with true
      by (symmetry; apply Z.ltb_lt; lia).
    cbn [negb orb].
    replace (Modifiers.minSelections group <=? Z.of_nat 0) with false
      by (symmetry; apply Z.leb_gt; lia).
    reflexivity.
  - intros Hmin Hnone. rewrite Hnone in Hle. cbn in Hle.
    replace (0 <? Modifiers.minSelections group) with true
      by (symmetry; apply Z.ltb_lt; lia).
    cbn [negb orb].
    replace (Modifiers.minSelections group
               <=? Z.of_nat (Modifiers.selectedCount group selected)) with false
      by (symmetry; apply Z.leb_gt; lia).
    reflexivity.
Qed.

Lemma badge_accepts_supersets_witness :
  Badge.badgeVariant Samples.toppings Samples.picked = Badge.secondary.
Proof.
  apply (badge_accepts_supersets Samples.toppings Samples.picked ∅).
  vm_compute. discriminate.
Defined.

(** X15. A selected modifier that is available can always be clicked
    away: in all three pickers its button calls [onToggle] with it, however
    many modifiers are selected and whatever the group's bounds are. *)
Theorem selected_modifier_can_be_toggled
    (group : Modifiers.ModifierGroup) (selected : gset string)
    (modifier : Modifiers.Modifier) :
  Modifiers.isAvailable modifier = true ->
  Modifiers.id modifier ∈ selected ->
  Modifiers.onClick (Modifiers.chipButton group selected modifier) = [modifier]
  /\ Modifiers.onClick (Modifiers.cardButton group selected modifier) = [modifier]
  /\ Modifiers.onClick (Modifiers.segmentedButton selected modifier) = [modifier].
Proof.
  intros Ha Hs.
  unfold Modifiers.chipButton, Modifiers.cardButton, Modifiers.segmentedButton.
  cbn. rewrite Ha, (bool_decide_eq_true_2 _ Hs). cbn.
  rewrite andb_false_r. auto.
Qed.

Lemma selected_modifier_can_be_toggled_witness :
  Modifiers.onClick (Modifiers.chipButton Samples.toppings Samples.picked Samples.olives)
    = [Samples.olives]
  /\ Modifiers.onClick (Modifiers.cardButton Samples.toppings Samples.picked Samples.olives)
    = [Samples.olives]
  /\ Modifiers.onClick (Modifiers.segmentedButton Samples.picked Samples.olives)
    = [Samples.olives].
Proof.
  apply (selected_modifier_can_be_toggled Samples.toppings Samples.picked Samples.olives).
  - reflexivity.
  - apply (bool_decide_eq_true_1 _). vm_compute. reflexivity.
Defined.

(** X16. [ModifierChips] and [ModifierCards] always render the same
    buttons.  [ModifierSegmented] renders the same buttons as they do
    whenever the group takes a single selection ([maxSelections] is 1) or
    fewer than [maxSelections] of its modifiers are selected: the three
    differ only once a cap above 1 is reached. *)
Theorem pickers_agree_below_the_cap
    (group : Modifiers.ModifierGroup) (selected : gset string) :
  Modifiers.ModifierChips group selected = Modifiers.ModifierCards group selected
  /\ (Modifiers.maxSelections group = 1
      \/ Z.of_nat (Modifiers.selectedCount group selected)
         < Modifiers.maxSelections group ->
      Modifiers.ModifierChips group selected
      = Modifiers.ModifierSegmented group selected).
Proof.
  split; [ reflexivity | ].
  intros Hroom.
  unfold Modifiers.ModifierChips, Modifiers.ModifierSegmented.
  apply list_fmap_ext. intros i m _.
  unfold Modifiers.chipButton, Modifiers.segmentedButton,
    Modifiers.isRadio, Modifiers.canSelectMore.
  assert ((negb (Modifiers.maxSelections group =? 1)
           && negb (bool_decide (Modifiers.id m ∈ selected))
           && negb (Z.of_nat (Modifiers.selectedCount group selected)
                      <? Modifiers.maxSelections group)) = false) as ->.
  { destruct Hroom as [-> | Hlt]; [ reflexivity | ].
    apply Z.ltb_lt in Hlt. rewrite Hlt. cbn. apply andb_false_r. }
  cbv zeta. rewrite orb_false_r. reflexivity.
Qed.

Lemma pickers_agree_below_the_cap_witness :
  Modifiers.ModifierChips Samples.toppings {[ "m-olives" ]}
  = Modifiers.ModifierSegmented Samples.toppings {[ "m-olives" ]}.
Proof.
  apply (pickers_agree_below_the_cap Samples.toppings {[ "m-olives" ]}).
  right. vm_compute. reflexivity.
Defined.

(** X17. In every picker the [disabled] attribute and the click handler
    agree: a disabled button calls nothing, and an enabled one calls
    [onToggle] once, with the available modifier of the group whose id is
    the button's key. *)
Theorem disabled_buttons_call_nothing
    (group : Modifiers.ModifierGroup) (selected : gset string)
    (button : Modifiers.Button) :
  In button (Modifiers.ModifierChips group selected)
  \/ In button (Modifiers.ModifierCards group selected)
  \/ In button (Modifiers.ModifierSegmented group selected) ->
  (Modifiers.disabled button = true -> Modifiers.onClick button = [])
  /\ (Modifiers.disabled button = false ->
      exists modifier,
        In modifier (Modifiers.modifiers group)
        /\ Modifiers.isAvailable modifier = true
        /\ Modifiers.key button = Modifiers.id modifier
        /\ Modifiers.onClick button = [modifier]).
Proof.
  unfold Modifiers.ModifierChips, Modifiers.ModifierCards, Modifiers.ModifierSegmented.
  intros [H | [H | H]]; apply in_map_iff in H as (m & <- & Hm);
    cbn [Modifiers.chipButton Modifiers.cardButton Modifiers.segmentedButton
         Modifiers.disabled Modifiers.onClick Modifiers.key];
    (split; [ intros ->; reflexivity | ]);
    intros Hd; rewrite Hd; exists m;
    (destruct (Modifiers.isAvailable m); [ | discriminate Hd ]);
    auto.
Qed.

Lemma disabled_buttons_call_nothing_witness :
  let button := Modifiers.chipButton Samples.toppings Samples.picked Samples.capers in
  Modifiers.disabled button = true /\ Modifiers.onClick button = [].
Proof.
  split; [ reflexivity | ].
  apply (disabled_buttons_call_nothing Samples.toppings Samples.picked).
  - left. vm_compute. auto.
  - reflexivity.
Defined.

(** X18. The label of [ModifierSegmented] is the label of the other two
    pickers exactly when the group requires a selection or takes a single
    one; for an optional group with another [maxSelections] the others
    print "Up to n" and the segmented picker prints "Optional". *)
Theorem segmented_label_hides_the_cap (group : Modifiers.ModifierGroup) :
  (Badge.segmentedRequirementLabel group = Badge.requirementLabel group
   <-> 0 < Modifiers.minSelections group \/ Modifiers.maxSelections group = 1)
  /\ (Modifiers.minSelections group <= 0 ->
      Badge.segmentedRequirementLabel group = "Optional").
Proof.
  unfold Badge.segmentedRequirementLabel, Badge.requirementLabel, Modifiers.isRequired.
  destruct (Z.ltb_spec 0 (Modifiers.minSelections group)) as [Hreq | Hopt].
  - split; [ | lia ]. split; auto.
  - split; [ | reflexivity ].
    destruct (Z.eqb_spec (Modifiers.maxSelections group) 1) as [Hone | Hmany].
    + split; auto.
    + split; [ cbn; discriminate | intros [? | ?]; [ lia | contradiction ] ].
Qed.

Lemma segmented_label_hides_the_cap_witness :
  Badge.segmentedRequirementLabel Samples.toppings = "Optional"
  /\ Badge.requirementLabel Samples.toppings = "Up to 2".
Proof.
  split; [ | reflexivity ].
  apply (segmented_label_hides_the_cap Samples.toppings). vm_compute. discriminate.
Defined.

(** ** [VariantChips] and [CategorySidebar] *)

(** In a list without repeated keys at most one element has a given key. *)
Lemma at_most_one_with_key {A} (f : A -> string) (k : option string) (l : list A) :
  NoDup (f <$> l) ->
  (length (List.filter (fun x => bool_decide (k = Some (f x))) l) <= 1)%nat
  /\ ((exists x, In x l /\ k = Some (f x)) ->
      length (List.filter (fun x => bool_decide (k = Some (f x))) l) = 1%nat)
  /\ ((forall x, In x l -> k <> Some (f x)) ->
      List.filter (fun x => bool_decide (k = Some (f x))) l = []).
Proof.
  intros Hnd.
  assert (Hnone : forall l' : list A, (forall x, In x l' -> k <> Some (f x)) ->
            List.filter (fun x => bool_decide (k = Some (f x))) l' = []).
  { induction l' as [|x l' IH]; intros H; [ reflexivity | ].
    simpl. rewrite bool_decide_eq_false_2 by (apply H; now left).
    apply IH. intros y Hy. apply H. now right. }
  split; [ | split; [ | apply Hnone ] ].
  - induction l as [|x l IH]; [ simpl; lia | ].
    rewrite fmap_cons in Hnd. apply NoDup_cons in Hnd as [Hx Hnd].
    simpl. destruct (bool_decide_reflect (k = Some (f x))) as [Hk | Hk]; [ | auto ].
    rewrite Hnone; [ simpl; lia | ].
    intros y Hy Hky. apply Hx. apply list_elem_of_fmap.
    exists y. split; [ congruence | now apply list_elem_of_In ].
  - intros (x0 & Hin & Hk0).
    induction l as [|x l IH]; [ destruct Hin | ].
    rewrite fmap_cons in Hnd. apply NoDup_cons in Hnd as [Hx Hnd].
    simpl. destruct (bool_decide_reflect (k = Some (f x))) as [Hk | Hk].
    + rewrite Hnone; [ reflexivity | ].
      intros y Hy Hky. apply Hx. apply list_elem_of_fmap.
      exists y. split; [ congruence | now apply list_elem_of_In ].
    + destruct Hin as [-> | Hin]; [ contradiction | ]. now apply IH.
Qed.

(** X19. [VariantChips] renders nothing exactly when there are no
    variants; otherwise it renders one button per variant, in order, keyed
    by the variant's id, and a click selects that variant if it is
    available and does nothing if it is not, also when the unavailable
    variant is the selected one. *)
Theorem VariantChips_one_button_per_variant
    (formatCurrency : Z -> string) (variants : list Variants.ItemVariant)
    (selectedVariantId : option string) (basePrice : Z) :
  (Variants.VariantChips formatCurrency variants selectedVariantId basePrice = None
   <-> variants = [])
  /\ forall buttons,
       Variants.VariantChips formatCurrency variants selectedVariantId basePrice
         = Some buttons ->
       length buttons = length variants
       /\ forall i variant,
            variants !! i = Some variant ->
            exists button,
              buttons !! i = Some button
              /\ Variants.key button = Variants.id variant
              /\ Variants.disabled button = negb (Variants.isAvailable variant)
              /\ Variants.onClick button
                 = if Variants.isAvailable variant then [variant] else [].
Proof.
  unfold Variants.VariantChips. split.
  - destruct variants; cbn [length Nat.eqb]; split; (reflexivity || discriminate).
  - intros buttons Hsome.
    assert (buttons
            = Variants.variantButton formatCurrency selectedVariantId basePrice
                <$> variants) as ->.
    { destruct (Nat.eqb (length variants) 0); congruence. }
    split; [ apply length_fmap | ].
    intros i variant Hi.
    exists (Variants.variantButton formatCurrency selectedVariantId basePrice variant).
    rewrite list_lookup_fmap, Hi. auto.
Qed.

Lemma VariantChips_one_button_per_variant_witness :
  Variants.VariantChips (fun _ => "") [] (Some "small") 500 = None.
Proof.
  apply (VariantChips_one_button_per_variant (fun _ => "") [] (Some "small") 500).
  reflexivity.
Defined.

(** X20. When the variants carry distinct ids, at most one button is
    drawn as selected: exactly one when [selectedVariantId] is the id of a
    variant, none when it is [null] or the id of no variant. *)
Theorem VariantChips_highlights_at_most_one
    (formatCurrency : Z -> string) (variants : list Variants.ItemVariant)
    (selectedVariantId : option string) (basePrice : Z)
    (buttons : list Variants.Button) :
  NoDup (Variants.id <$> variants) ->
  Variants.VariantChips formatCurrency variants selectedVariantId basePrice
    = Some buttons ->
  let lit := List.filter Variants.highlighted buttons in
  (length lit <= 1)%nat
  /\ ((exists variant, In variant variants
                       /\ selectedVariantId = Some (Variants.id variant)) ->
      length lit = 1%nat)
  /\ ((forall variant, In variant variants ->
                       selectedVariantId <> Some (Variants.id variant)) ->
      lit = []).
Proof.
  intros Hnd Hsome.
  assert (buttons
          = Variants.variantButton formatCurrency selectedVariantId basePrice
              <$> variants) as ->.
  { unfold Variants.VariantChips in Hsome.
    destruct (Nat.eqb (length variants) 0); congruence. }
  cbv zeta.
  assert (forall l : list Variants.ItemVariant,
            length (List.filter Variants.highlighted
                      (Variants.variantButton formatCurrency selectedVariantId basePrice
                         <$> l))
            = length (List.filter
                        (fun v => bool_decide (selectedVariantId = Some (Variants.id v))) l))
    as Hlen.
  { induction l as [|v l IH]; [ reflexivity | ].
    cbn. destruct (bool_decide _); cbn; now rewrite IH. }
  destruct (at_most_one_with_key Variants.id selectedVariantId variants Hnd)
    as (Hle & Hone & Hnone).
  rewrite Hlen. split; [ exact Hle | split; [ exact Hone | ] ].
  intros Hno. apply length_zero_iff_nil. rewrite Hlen, (Hnone Hno). reflexivity.
Qed.

(** X21. The base price never reaches the output of [VariantChips]: the
    sum the component computes for each variant is not rendered, and the
    price text depends on the adjustment alone, with a plus sign exactly
    for a positive one and no text for zero. *)
Theorem VariantChips_ignores_the_base_price
    (formatCurrency : Z -> string) (variants : list Variants.ItemVariant)
    (selectedVariantId : option string) (basePrice basePrice' : Z) :
  Variants.VariantChips formatCurrency variants selectedVariantId basePrice
  = Variants.VariantChips formatCurrency variants selectedVariantId basePrice'
  /\ forall variant,
       Variants.priceLabel
         (Variants.variantButton formatCurrency selectedVariantId basePrice variant)
       = match Variants.priceAdjustment variant ?= 0 with
         | Eq => None
         | Gt => Some (String.append "+" (formatCurrency (Variants.priceAdjustment variant)))
         | Lt => Some (formatCurrency (Variants.priceAdjustment variant))
         end.
Proof.
  split; [ reflexivity | ].
  intros variant. cbn.
  destruct (Z.compare_spec (Variants.priceAdjustment variant) 0) as [-> | Hlt | Hgt].
  - reflexivity.
  - replace (Variants.priceAdjustment variant =? 0) with false
      by (symmetry; apply Z.eqb_neq; lia).
    replace (0 <? Variants.priceAdjustment variant) with false
      by (symmetry; apply Z.ltb_ge; lia).
    reflexivity.
  - replace (Variants.priceAdjustment variant =? 0) with false
      by (symmetry; apply Z.eqb_neq; lia).
    replace (0 <? Variants.priceAdjustment variant) with true
      by (symmetry; apply Z.ltb_lt; lia).
    reflexivity.
Qed.

(** X22. When the categories carry distinct ids, at most one tab has
    [aria-selected] set: exactly one when [selectedCategoryId] is the id of
    a category, none when it is [null] or the id of no category. *)
Theorem CategorySidebar_selects_at_most_one
    (categories : list Categories.Category) (selectedCategoryId : option string) :
  NoDup (Categories.id <$> categories) ->
  let lit :=
    List.filter Categories.ariaSelected
      (Categories.CategorySidebar categories selectedCategoryId) in
  (length lit <= 1)%nat
  /\ ((exists category, In category categories
                        /\ selectedCategoryId = Some (Categories.id category)) ->
      length lit = 1%nat)
  /\ ((forall category, In category categories ->
                        selectedCategoryId <> Some (Categories.id category)) ->
      lit = []).
Proof.
  intros Hnd. cbv zeta. unfold Categories.CategorySidebar.
  assert (forall l : list Categories.Category,
            length (List.filter Categories.ariaSelected
                      (Categories.categoryTab selectedCategoryId <$> l))
            = length (List.filter
                        (fun c => bool_decide (selectedCategoryId = Some (Categories.id c))) l))
    as Hlen.
  { induction l as [|c l IH]; [ reflexivity | ].
    cbn [fmap list_fmap List.filter Categories.categoryTab Categories.ariaSelected].
    rewrite (bool_decide_ext (Some (Categories.id c) = selectedCategoryId)
                             (selectedCategoryId = Some (Categories.id c)))
      by (split; congruence).
    destruct (bool_decide _); cbn [length]; now rewrite IH. }
  destruct (at_most_one_with_key Categories.id selectedCategoryId categories Hnd)
    as (Hle & Hone & Hnone).
  rewrite Hlen. split; [ exact Hle | split; [ exact Hone | ] ].
  intros Hno. apply length_zero_iff_nil. rewrite Hlen, (Hnone Hno). reflexivity.
Qed.


(** X24. Selecting a category is never blocked: there is one tab per
    category, in order, and every tab, the selected one included, calls
    [onSelectCategory] once with its own id, so the calls do not depend on
    [selectedCategoryId]. *)
Theorem CategorySidebar_every_tab_selects
    (categories : list Categories.Category)
    (selectedCategoryId selectedCategoryId' : option string) :
  Categories.onClick <$> Categories.CategorySidebar categories selectedCategoryId
    = (fun category => [Categories.id category]) <$> categories
  /\ Categories.onClick <$> Categories.CategorySidebar categories selectedCategoryId
     = Categories.onClick <$> Categories.CategorySidebar categories selectedCategoryId'
  /\ length (Categories.CategorySidebar categories selectedCategoryId)
     = length categories.
Proof.
  unfold Categories.CategorySidebar.
  rewrite <- !list_fmap_compose, length_fmap. auto.
Qed.

Lemma VariantChips_highlights_at_most_one_witness :
  exists buttons,
    Variants.VariantChips MenuSamples.cents MenuSamples.sizes (Some "v-large") 500
      = Some buttons
    /\ length (List.filter Variants.highlighted buttons) = 1%nat.
Proof.
  eexists. split; [ reflexivity | ].
  apply (VariantChips_highlights_at_most_one
           MenuSamples.cents MenuSamples.sizes (Some "v-large") 500).
  - apply (bool_decide_eq_true_1 _). vm_compute. reflexivity.
  - reflexivity.
  - exists MenuSamples.large. split; [ simpl; auto | reflexivity ].
Defined.

Lemma CategorySidebar_selects_at_most_one_witness :
  List.filter Categories.ariaSelected
    (Categories.CategorySidebar MenuSamples.menu None) = [].
Proof.
  apply (CategorySidebar_selects_at_most_one MenuSamples.menu None).
  - apply (bool_decide_eq_true_1 _). vm_compute. reflexivity.
  - intros category _. discriminate.
Defined.

(** ** More runs on the sample inputs *)

Example sizes_render :
  Variants.VariantChips MenuSamples.cents MenuSamples.sizes (Some "v-regular") 500
  = Some [Variants.mkButton "v-small" false false (Some "-50") [MenuSamples.small];
          Variants.mkButton "v-regular" false true None [MenuSamples.regular];
          Variants.mkButton "v-large" true false (Some "+150") []].
Proof. reflexivity. Qed.

Example menu_renders :
  Categories.CategorySidebar MenuSamples.menu (Some "c-drinks")
  = [Categories.mkTab "c-burgers" false
       (Categories.Image "/img/burgers.png" "Burgers") "Burgers" ["c-burgers"];
     Categories.mkTab "c-drinks" true (Categories.Placeholder "D") "Drinks" ["c-drinks"];
     Categories.mkTab "c-sides" false (Categories.Placeholder "") "" ["c-sides"]].
Proof. reflexivity. Qed.

Example labels_render :
  Badge.requirementLabel (Modifiers.mkModifierGroup "Sauce" 1 1 []) = "Select 1"
  /\ Badge.requirementLabel (Modifiers.mkModifierGroup "Sides" 1 3 []) = "Select 1-3"
  /\ Badge.requirementLabel (Modifiers.mkModifierGroup "Extras" 0 1 []) = "Optional"
  /\ Badge.requirementLabel (Modifiers.mkModifierGroup "Extras" 0 4 []) = "Up to 4"
  /\ Badge.segmentedRequirementLabel (Modifiers.mkModifierGroup "Extras" 0 4 []) = "Optional".
Proof. repeat split. Qed.
